(** * A shallow embedding of the pants orchestration core

    The development follows two source files of the repository:

    - [src/python/pants/bin/goal_runner.py]: [GoalRunner._execute_engine]
      and [GoalRunner.run];
    - [src/python/pants/engine/exp/targets.py]: [Variants.merge],
      [Sources.__init__], [Sources._accept_file], [Sources.iter_paths],
      [Target.select_configuration] and [Target.walk_targets].

    Python objects become records, [None]-able attributes become [option],
    exceptions become an explicit error result, calls into collaborators
    that are not part of these files (the round engine, the glob
    expansion, the run tracker, the nailgun process group) become either
    section variables or events of a trace. *)

From Stdlib Require Import ZArith Ascii String List Lia OrdersEx.
From stdpp Require Import base option list sets gmap strings sorting relations.

Local Open Scope Z_scope.
Set Warnings "-clear-no-such-hyp".

(** ** Python string helpers used by both files *)

Module Py.

(** [s.endswith(suffix)] *)
Definition endswith (s suffix : string) : bool :=
  let n := String.length s in
  let k := String.length suffix in
  (k <=? n)%nat && String.eqb (String.substring (n - k) k s) suffix.

(** [s.startswith(prefix)] *)
Definition startswith (s prefix : string) : bool :=
  String.prefix prefix s.

(** [sep.join(parts)] *)
Fixpoint join (sep : string) (parts : list string) : string :=
  match parts with
  | [] => ""
  | [p] => p
  | p :: rest => p +:+ sep +:+ join sep rest
  end.

(** Truthiness of a string that may be [None]. *)
Definition str_truthy (s : option string) : bool :=
  match s with
  | Some (String _ _) => true
  | _ => false
  end.

(** Truthiness of a list that may be [None]. *)
Definition list_truthy {A} (l : option (list A)) : bool :=
  match l with
  | Some (_ :: _) => true
  | _ => false
  end.

(** The elements iterated over when a truthy list is walked. *)
Definition items {A} (l : option (list A)) : list A := default [] l.

End Py.

(** ** [goal_runner.py] *)

Module GoalRunner.

(** The exceptions [run] distinguishes.  [KeyboardInterrupt] and
    [SystemExit] derive from [BaseException] only, so the
    [except Exception] clause does not see them. *)
Inductive exn : Type :=
| KeyboardInterrupt
| Exception (msg : string)
| SystemExit (code : Z).

(** How a call ends: it returns a value or an exception leaves it. *)
Inductive outcome (A : Type) : Type :=
| Returns (a : A)
| Raises (e : exn).
Arguments Returns {A} a.
Arguments Raises {A} e.

(** [WorkUnit] outcome constants handed to the run tracker. *)
Inductive WorkUnit : Type := SUCCESS | FAILURE.

Global Instance WorkUnit_eq_dec : EqDecision WorkUnit.
Proof. solve_decision. Defined.

(** What the runner does to its collaborators, in program order. *)
Inductive event : Type :=
| LogError (msg : string)            (* self._context.log.error(msg) *)
| EngineExecute                      (* RoundEngine().execute(context, goals) *)
| InvalidationReport                 (* self._invalidation_report.report() *)
| SetRootOutcome (o : WorkUnit)      (* self._run_tracker.set_root_outcome(o) *)
| NailgunKillall.                    (* NailgunProcessGroup().killall() *)

Global Instance event_eq_dec : EqDecision event.
Proof. solve_decision. Defined.

(** A goal as the runner sees it: its name and [ordered_task_names()]. *)
Record Goal : Type := {
  name : string;
  ordered_task_names : list string
}.

(** The attributes of a [GoalRunner] that [_execute_engine] and [run]
    read.  [_invalidation_report] holds how its [report()] call ends. *)
Record GoalRunner : Type := {
  pants_workdir : string;
  _goals : list Goal;
  _invalidation_report : option (outcome unit);
  _kill_nailguns : bool
}.

(** A computation: the events emitted so far and how it ended. *)
Definition M (A : Type) : Type := (list event * outcome A)%type.

Definition ret {A} (a : A) : M A := ([], Returns a).
Definition emit (e : event) : M unit := ([e], Returns tt).
Definition call {A} (e : event) (o : outcome A) : M A := ([e], o).
Definition bind {A B} (f : A → M B) (m : M A) : M B :=
  match m with
  | (tr, Returns a) => let '(tr', o) := f a in (tr ++ tr', o)
  | (tr, Raises e) => (tr, Raises e)
  end.

Global Instance M_ret : MRet M := @ret.
Global Instance M_bind : MBind M := @bind.

Definition workdir_error (workdir : string) : string :=
  "Pants working directory should end with '.pants.d', currently it is "
    +:+ workdir +:+ String "010" "".

Definition unknown_goals_error (unknown_goals : list string) : string :=
  "Unknown goal(s): " +:+ Py.join " " unknown_goals +:+ String "010" "".

(** [[goal.name for goal in self._goals if not goal.ordered_task_names()]] *)
Definition unknown_goals (self : GoalRunner) : list string :=
  map name (filter (λ goal, ordered_task_names goal = []) (_goals self)).

Section Engine.

(** The task engine is an external collaborator: [execute] says how
    [RoundEngine().execute(context, goals)] ends for a list of goals. *)
Variable execute : list Goal → outcome Z.

Definition _execute_engine (self : GoalRunner) : M Z :=
  let workdir := pants_workdir self in
  if negb (Py.endswith workdir ".pants.d") then
    emit (LogError (workdir_error workdir)) ;;
    ret 1
  else
    let unknown_goals := unknown_goals self in
    match unknown_goals with
    | _ :: _ =>
        emit (LogError (unknown_goals_error unknown_goals)) ;;
        ret 1
    | [] =>
        result ← call EngineExecute (execute (_goals self));
        match _invalidation_report self with
        | Some report => call InvalidationReport report
        | None => ret tt
        end ;;
        ret result
    end.

(** The [finally] clause of [run]. *)
Definition finally_kill (should_kill_nailguns : bool) : list event :=
  if should_kill_nailguns then [NailgunKillall] else [].

Definition run (self : GoalRunner) : M Z :=
  let should_kill_nailguns := _kill_nailguns self in
  match _execute_engine self with
  | (tr, Returns result) =>
      let tr := tr ++ (if bool_decide (result ≠ 0)
                       then [SetRootOutcome FAILURE] else []) in
      (tr ++ finally_kill should_kill_nailguns, Returns result)
  | (tr, Raises KeyboardInterrupt) =>
      let tr := tr ++ [SetRootOutcome FAILURE] in
      let should_kill_nailguns := true in
      (tr ++ finally_kill should_kill_nailguns, Raises KeyboardInterrupt)
  | (tr, Raises (Exception msg)) =>
      let tr := tr ++ [SetRootOutcome FAILURE] in
      (tr ++ finally_kill should_kill_nailguns, Raises (Exception msg))
  | (tr, Raises e) =>
      (tr ++ finally_kill should_kill_nailguns, Raises e)
  end.

End Engine.

End GoalRunner.

(** ** [targets.py]: [Variants] *)

Module Variants.

(** Keys are compared the way Python compares strings: lexicographically,
    character code by character code. *)
Definition key_le (x y : string * string) : Prop :=
  String_as_OT.compare x.1 y.1 ≠ Gt.

Definition key_lt (x y : string * string) : Prop :=
  String_as_OT.compare x.1 y.1 = Lt.

Global Instance key_le_dec : RelDecision key_le.
Proof. intros x y. unfold key_le. apply _. Defined.

(** [dict(pairs)]: later pairs overwrite earlier ones with the same key. *)
Definition dict (pairs : list (string * string)) : gmap string string :=
  foldl (λ m kv, <[kv.1 := kv.2]> m) ∅ pairs.

(** [for key, value in right: merged[key] = value] *)
Definition update (merged : gmap string string)
    (right : list (string * string)) : gmap string string :=
  foldl (λ m kv, <[kv.1 := kv.2]> m) merged right.

(** [sorted(items, key=lambda x: x[0])] *)
Definition sorted_by_key (items : list (string * string))
    : list (string * string) :=
  merge_sort key_le items.

(** An argument of [merge] that is not [None] is an iterable of pairs.
    What [merge] can tell apart is its truth value: a sequence (a list,
    a tuple) is falsy when it is empty; an iterator (a generator, say)
    is truthy whatever it holds. *)
Inductive iterable : Type :=
| Sequence (pairs : list (string * string))
| Iterator (pairs : list (string * string)).

(** The truth value of an argument: [not left] is [negb (truthy left)]. *)
Definition truthy (x : option iterable) : bool :=
  match x with
  | None => false
  | Some (Sequence pairs) => Py.list_truthy (Some pairs)
  | Some (Iterator _) => true
  end.

(** The pairs that iterating over an argument gives. *)
Definition pairs_of (x : option iterable) : list (string * string) :=
  match x with
  | None => []
  | Some (Sequence pairs) => pairs
  | Some (Iterator pairs) => pairs
  end.

(** [Variants.merge(left, right)].  Each side is iterated over once, by
    [tuple], [dict] or the [for] loop; the result is [None] or a tuple
    of pairs. *)
Definition merge (left right : option iterable)
    : option (list (string * string)) :=
  if negb (truthy left) then
    if truthy right then Some (pairs_of right) else None
  else if negb (truthy right) then
    Some (pairs_of left)
  else
    let merged := dict (pairs_of left) in
    let merged := update merged (pairs_of right) in
    Some (sorted_by_key (map_to_list merged)).

(** The keys of an argument. *)
Definition keys (x : option iterable) : list string := (pairs_of x).*1.

(** [None] or a tuple of pairs, as an argument of [merge]: what [merge]
    returns can be merged again. *)
Definition sequence (x : option (list (string * string)))
    : option iterable :=
  Sequence <$> x.

End Variants.

(** ** [targets.py]: [Target] *)

Module Target.

(** Objects are told apart by identity: a target is named by the place
    it occupies in the object store. *)
Definition ref : Type := nat.

(** A dependency is a [Target] (an edge of the graph) or some other
    addressable value, which [isinstance(dep, Target)] filters out. *)
Inductive dep : Type :=
| DepTarget (t : ref)
| DepOther (repr : string).

(** A configuration: a [Struct] with a [name] and [dependencies]. *)
Record Configuration : Type := {
  name : option string;
  dependencies : list dep
}.

Record Target : Type := {
  target_name : option string;
  configurations : list Configuration
}.

(** The object store: every target that exists, by identity. *)
Definition store : Type := gmap ref Target.

(** [self.configurations] for the object [self] of the store. *)
Definition configurations_of (h : store) (self : ref) : list Configuration :=
  from_option configurations [] (h !! self).

Inductive error : Type :=
| ConfigurationNotFound (name : option string) (matches : list Configuration).

(** [Target.select_configuration(name)] *)
Definition select_configuration (self : Target) (name' : option string)
    : error + Configuration :=
  let configs :=
    filter (λ config, name config = name') (configurations self) in
  match configs with
  | [config] => inr config
  | _ => inl (ConfigurationNotFound name' configs)
  end.

(** The generator [walk] threads the [visited] set and yields targets:
    a computation takes the set and gives what it yielded with the set
    afterwards, or [None] when the fuel bounding its recursion ran out. *)
Definition G : Type := gset ref → option (list ref * gset ref).

Definition yield (t : ref) : G := λ visited, Some ([t], visited).
Definition skip : G := λ visited, Some ([], visited).
Definition seq (g1 g2 : G) : G := λ visited,
  match g1 visited with
  | Some (ys, visited') =>
      match g2 visited' with
      | Some (zs, visited'') => Some (ys ++ zs, visited'')
      | None => None
      end
  | None => None
  end.

(** [for x in xs: body(x)] *)
Fixpoint for_each {A} (xs : list A) (body : A → G) : G :=
  match xs with
  | [] => skip
  | x :: xs' => seq (body x) (for_each xs' body)
  end.

Section Walk.

Variable h : store.
Variable self : ref.
Variable postorder : bool.

(** The inner function [walk] of [walk_targets].  The loop ranges
    over [self.configurations], the configurations of the target
    [walk_targets] was called on, at every depth. *)
Fixpoint walk (fuel : nat) (target : ref) : G :=
  match fuel with
  | O => λ _, None
  | S fuel' => λ visited,
      if decide (target ∈ visited) then skip visited
      else
        seq (if negb postorder then yield target else skip)
         (seq (for_each (configurations_of h self) (λ configuration,
                 for_each (dependencies configuration) (λ dep,
                   match dep with
                   | DepTarget t => walk fuel' t
                   | DepOther _ => skip
                   end)))
              (if postorder then yield target else skip))
          ({[target]} ∪ visited)
  end.

(** [isinstance(dep, Target)] *)
Definition target_of (d : dep) : option ref :=
  match d with
  | DepTarget t => Some t
  | DepOther _ => None
  end.

(** The [Target]-typed dependencies of [self.configurations], in
    iteration order. *)
Definition target_deps : list ref :=
  configurations_of h self ≫= λ configuration,
    omap target_of (dependencies configuration).

(** [walk_targets]: the recursion never goes deeper than one level per
    distinct dependency of [self], plus one for [self]. *)
Definition walk_targets : option (list ref) :=
  fst <$> walk (2 + length target_deps) self ∅.

End Walk.

(** The dependency graph: [edge h a b] when some configuration of [a]
    lists the target [b] among its dependencies. *)
Definition edge (h : store) (a b : ref) : Prop :=
  ∃ configuration,
    configuration ∈ configurations_of h a ∧
    DepTarget b ∈ dependencies configuration.

Definition reachable (h : store) : relation ref := rtc (edge h).

(** A specification for pieces of the walk.  Started from a visited set
    that leaves fewer than [fuel] of the [candidates] unvisited, the
    generator [g] ends; it yields distinct targets, all of them candidates
    that were not visited before; the visited set grows by exactly what
    was yielded, and contains [must] at the end. *)
Definition yields_fresh (candidates : gset ref) (fuel : nat) (g : G)
    (must : gset ref) : Prop :=
  ∀ visited,
    (size (candidates ∖ visited) < fuel)%nat →
    ∃ ys visited',
      g visited = Some (ys, visited')
      ∧ NoDup ys
      ∧ (∀ y, y ∈ ys → y ∉ visited)
      ∧ visited' = visited ∪ list_to_set ys
      ∧ list_to_set ys ⊆ candidates
      ∧ must ⊆ visited'.

End Target.

(** ** [os.path] on a POSIX system, as [targets.py] calls it *)

Module PosixPath.

(** [s.rfind(c)]: the index of the last [c] in [s], or [-1]. *)
Fixpoint rfind_from (c : ascii) (s : string) (i last : Z) : Z :=
  match s with
  | EmptyString => last
  | String a s' => rfind_from c s' (i + 1) (if Ascii.eqb a c then i else last)
  end.

Definition rfind (c : ascii) (s : string) : Z := rfind_from c s 0 (-1).

(** [p[:i]] and [p[i:]] for [0 <= i]. *)
Definition slice_to (p : string) (i : Z) : string :=
  String.substring 0 (Z.to_nat i) p.

Definition slice_from (p : string) (i : Z) : string :=
  String.substring (Z.to_nat i) (String.length p - Z.to_nat i) p.

(** The loop of [splitext] that skips leading dots: is there a
    character other than the dot among the [n] characters of [p] that
    start at [filenameIndex]? *)
Fixpoint has_non_dot (p : string) (filenameIndex : nat) (n : nat) : bool :=
  match n with
  | O => false
  | S n' =>
      match String.get filenameIndex p with
      | Some c =>
          if Ascii.eqb c "." then has_non_dot p (S filenameIndex) n'
          else true
      | None => true
      end
  end.

(** [os.path.splitext(p)] *)
Definition splitext (p : string) : string * string :=
  let sepIndex := rfind "/" p in
  let dotIndex := rfind "." p in
  if (sepIndex <? dotIndex)
     && has_non_dot p (Z.to_nat (sepIndex + 1))
                    (Z.to_nat (dotIndex - (sepIndex + 1)))
  then (slice_to p dotIndex, slice_from p dotIndex)
  else (p, "").

(** [os.path.join(a, b)] *)
Definition join (a b : string) : string :=
  if Py.startswith b "/" then b
  else if String.eqb a "" || Py.endswith a "/" then a +:+ b
  else a +:+ "/" +:+ b.

End PosixPath.

(** ** [targets.py]: [Sources] *)

Module Sources.

(** The address a [Struct] may be bound to. *)
Record Address : Type := {
  spec_path : string;
  target_name : string
}.

(** A [Sources] object.  [extensions] is the abstract property each
    concrete subclass declares; [address] is set when the object is
    bound to an address.  An address or an [excludes] object that is
    present is truthy. *)
#[warnings="-register-all"]
Inductive Sources : Type := Build_Sources {
  name : option string;
  files : option (list string);
  globs : option string;
  rglobs : option string;
  zglobs : option string;
  excludes : option Sources;
  address : option Address;
  extensions : gset string
}.

Definition set_excludes (excludes' : option Sources) (self : Sources)
    : Sources :=
  Build_Sources (name self) (files self) (globs self) (rglobs self)
                (zglobs self) excludes' (address self) (extensions self).

Definition set_address (address' : option Address) (self : Sources)
    : Sources :=
  Build_Sources (name self) (files self) (globs self) (rglobs self)
                (zglobs self) (excludes self) address' (extensions self).

(** Both failures are [ValueError]s; they differ in their message. *)
Inductive error : Type :=
| ValueError_not_a_file (path : string) (extensions : gset string)
| ValueError_base_path.

(** The wrappers of [pants.source.wrapped_globs]. *)
Inductive fileset_wrapper_type : Type := Globs | RGlobs | ZGlobs.

(** [Sources._accept_file(f)] *)
Definition _accept_file (self : Sources) (f : string) : bool :=
  let ext := (PosixPath.splitext f).2 in
  bool_decide (ext ∈ extensions self).

(** The loop of [__init__] over [files]: the first file that is not
    accepted raises. *)
Fixpoint check_files (self : Sources) (files : list string)
    : error + unit :=
  match files with
  | [] => inr tt
  | f :: files' =>
      if negb (_accept_file self f)
      then inl (ValueError_not_a_file f (extensions self))
      else check_files self files'
  end.

(** [Sources.__init__] of the subclass that declares [extensions']. *)
Definition __init__ (extensions' : gset string)
    (name' : option string) (files' : option (list string))
    (globs' rglobs' zglobs' : option string) (excludes' : option Sources)
    : error + Sources :=
  let self :=
    Build_Sources name' files' globs' rglobs' zglobs' None None extensions' in
  if Py.list_truthy files' && negb (bool_decide (extensions self = ∅)) then
    match check_files self (Py.items files') with
    | inl e => inl e
    | inr _ => inr (set_excludes excludes' self)
    end
  else inr (set_excludes excludes' self).

Section Filesets.

(** The glob expansion reads the file system:
    [fileset w base_path spec] is the sequence of relative paths of
    [w(base_path)(spec)]. *)
Variable fileset : fileset_wrapper_type → string → string → list string.

(** The inner generator [file_sources], chained. *)
Definition file_sources (self : Sources) (base_path : string)
    : list (list string) :=
  (if Py.list_truthy (files self) then [Py.items (files self)] else [])
  ++ flat_map (λ '(spec, w),
                if Py.str_truthy spec
                then [fileset w base_path (default "" spec)]
                else [])
              [(globs self, Globs); (rglobs self, RGlobs);
               (zglobs self, ZGlobs)].

(** The final loop of [iter_paths] for a given set of excluded files. *)
Definition filter_paths (self : Sources) (base_path : string)
    (excluded_files : gset string) : list string :=
  flat_map (λ rel_path,
              if _accept_file self rel_path then
                let file_path := PosixPath.join base_path rel_path in
                if bool_decide (file_path ∉ excluded_files)
                then [file_path] else []
              else [])
           (concat (file_sources self base_path)).

(** [Sources.iter_paths(base_path)], consumed to the end. *)
Fixpoint iter_paths (self : Sources) (base_path : option string)
    : error + list string :=
  let base_path :=
    match address self with
    | Some a => Some (spec_path a)
    | None => base_path
    end in
  if negb (Py.str_truthy base_path) then inl ValueError_base_path
  else
    let base_path := default "" base_path in
    match excludes self with
    | Some excludes' =>
        match iter_paths excludes' (Some base_path) with
        | inl e => inl e
        | inr paths => inr (filter_paths self base_path (list_to_set paths))
        end
    | None => inr (filter_paths self base_path ∅)
    end.

End Filesets.

End Sources.

(** ** Notions used to state properties of [Sources] *)

Module SourcesFacts.

Import Sources.

(** The [excludes] of a [Sources] object, the [excludes] of that, and so
    on. *)
Fixpoint nested_excludes (self : Sources) : list Sources :=
  match excludes self with
  | Some excludes' => excludes' :: nested_excludes excludes'
  | None => []
  end.

(** The base path [iter_paths] works with: the [spec_path] of the
    address if there is one, else the argument. *)
Definition resolved_base_path (self : Sources) (base_path : option string)
    : option string :=
  match address self with
  | Some a => Some (spec_path a)
  | None => base_path
  end.

End SourcesFacts.

(** ** [goal_runner.py]: [GoalRunnerFactory] *)

Module GoalRunnerFactory.

(** How [address_mapper.resolve_spec(goal)] ends: it finds an address, it
    raises [AddressLookupError], or it raises something else. *)
Inductive lookup : Type :=
| Resolved
| AddressLookupError
| LookupRaises (e : GoalRunner.exn).

Section Factory.

(** Addresses and targets of the build graph are opaque here. *)
Context {Address T : Type}.

(** What the factory does to its collaborators, in program order. *)
Inductive event : Type :=
| LaunchPantsd                          (* PantsDaemonLauncher.global_instance().maybe_launch() *)
| WorkunitEnter (name : string)         (* entering run_tracker.new_workunit(name=...) *)
| WorkunitExit (name : string)          (* leaving it *)
| LogWarning (msg : string)             (* logger.warning(msg) *)
| PrintHelp                             (* HelpPrinter(options).print_help() *)
| Exiter (code : Z)                     (* self._exiter(code) *)
| InjectAddressClosure (a : Address)    (* build_graph.inject_address_closure(a) *)
| AddScmInfo                            (* run_tracker.run_info.add_scm_info() *)
| UpdateReporting (quiet : bool).       (* reporting.update_reporting(..., quiet, ...) *)

(** The collaborators the factory reads from. *)
Record Env : Type := {
  resolve_spec : string → lookup;
  print_help : Z;
  exiter : Z → GoalRunner.outcome unit;
  by_name : string → GoalRunner.Goal;
  parse_addresses : string → bool → GoalRunner.outcome (list Address);
  get_target : Address → T;
  tag_filter : T → bool;
  has_quiet_task : GoalRunner.Goal → bool;
  update_reporting : bool → option (GoalRunner.outcome unit)
}.

(** The attributes of a [GoalRunnerFactory].  [_goals] and [_targets]
    are the two lists the factory fills in place. *)
Record Factory : Type := {
  _requested_goals : list string;
  _target_specs : list string;
  _help_request : bool;
  _fail_fast : bool;
  _explain : bool;
  _kill_nailguns : bool;
  enable_pantsd : bool;
  pants_workdir : string;
  _goals : list GoalRunner.Goal;
  _targets : list T
}.

Definition set_goals (goals' : list GoalRunner.Goal) (self : Factory)
    : Factory :=
  {| _requested_goals := _requested_goals self;
     _target_specs := _target_specs self;
     _help_request := _help_request self;
     _fail_fast := _fail_fast self;
     _explain := _explain self;
     _kill_nailguns := _kill_nailguns self;
     enable_pantsd := enable_pantsd self;
     pants_workdir := pants_workdir self;
     _goals := goals';
     _targets := _targets self |}.

Definition set_targets (targets' : list T) (self : Factory) : Factory :=
  {| _requested_goals := _requested_goals self;
     _target_specs := _target_specs self;
     _help_request := _help_request self;
     _fail_fast := _fail_fast self;
     _explain := _explain self;
     _kill_nailguns := _kill_nailguns self;
     enable_pantsd := enable_pantsd self;
     pants_workdir := pants_workdir self;
     _goals := _goals self;
     _targets := targets' |}.

(** The [Context] handed to the runner, as far as it is filled from the
    factory's own lists. *)
Record Context : Type := {
  target_roots : list T;
  requested_goals : list string
}.

(** A method of the factory: from the object it gives the events, the
    object afterwards and how the call ended.  The object is kept when an
    exception leaves the call: what was appended stays appended. *)
Definition F (A : Type) : Type :=
  Factory → list event * Factory * GoalRunner.outcome A.

Definition ret {A} (a : A) : F A := λ self, ([], self, GoalRunner.Returns a).

Definition bind {A B} (f : A → F B) (m : F A) : F B := λ self,
  match m self with
  | (tr, self', GoalRunner.Returns a) =>
      let '(tr', self'', o) := f a self' in (tr ++ tr', self'', o)
  | (tr, self', GoalRunner.Raises e) => (tr, self', GoalRunner.Raises e)
  end.

Global Instance F_ret : MRet F := @ret.
Global Instance F_bind : MBind F := @bind.

Definition emit (e : event) : F unit := λ self,
  ([e], self, GoalRunner.Returns tt).

Definition raise {A} (e : GoalRunner.exn) : F A := λ self,
  ([], self, GoalRunner.Raises e).

(** A call of a collaborator that may raise. *)
Definition call {A} (e : list event) (o : GoalRunner.outcome A) : F A :=
  λ self, (e, self, o).

Definition gets {A} (f : Factory → A) : F A := λ self,
  ([], self, GoalRunner.Returns (f self)).

Definition modify (f : Factory → Factory) : F unit := λ self,
  ([], f self, GoalRunner.Returns tt).

(** [for x in xs: body(x)] *)
Fixpoint for_each {X} (xs : list X) (body : X → F unit) : F unit :=
  match xs with
  | [] => ret tt
  | x :: xs' => body x ;; for_each xs' body
  end.

(** [with self._run_tracker.new_workunit(name=...): body]: the work unit
    is left on every path out of the body. *)
Definition with_workunit {A} (name : string) (body : F A) : F A := λ self,
  let '(tr, self', o) := body self in
  (WorkunitEnter name :: tr ++ [WorkunitExit name], self', o).

Definition ambiguous_warning (goal : string) : string :=
  "Command-line argument '" +:+ goal
    +:+ "' is ambiguous and was assumed to be a goal. If this is incorrect, disambiguate it with ./"
    +:+ goal +:+ ".".

Variable env : Env.

(** [GoalRunnerFactory._expand_goals(goals)] *)
Definition _expand_goals (goals : list string) : F unit :=
  for_each goals (λ goal,
    match resolve_spec env goal with
    | Resolved => emit (LogWarning (ambiguous_warning goal))
    | AddressLookupError => ret tt
    | LookupRaises e => raise e
    end) ;;
  help_request ← gets _help_request;
  (if help_request : bool then
     result ← call [PrintHelp] (GoalRunner.Returns (print_help env));
     call [Exiter result] (exiter env result)
   else ret tt) ;;
  modify (λ self, set_goals (_goals self ++ (by_name env <$> goals)) self).

(** [GoalRunnerFactory._expand_specs(specs, fail_fast)] *)
Definition _expand_specs (specs : list string) (fail_fast : bool) : F unit :=
  with_workunit "parse"
    (for_each specs (λ spec,
       addresses ← call [] (parse_addresses env spec fail_fast);
       for_each addresses (λ address,
         emit (InjectAddressClosure address) ;;
         let target := get_target env address in
         if tag_filter env target
         then modify (λ self, set_targets (_targets self ++ [target]) self)
         else ret tt))).

(** [GoalRunnerFactory._maybe_launch_pantsd()] *)
Definition _maybe_launch_pantsd : F unit :=
  enabled ← gets enable_pantsd;
  if enabled : bool then with_workunit "pantsd" (emit LaunchPantsd)
  else ret tt.

(** [GoalRunnerFactory._is_quiet()] *)
Definition _is_quiet : F bool :=
  gets (λ self, existsb (has_quiet_task env) (_goals self) || _explain self).

(** [GoalRunnerFactory._setup_context()] *)
Definition _setup_context
    : F (Context * option (GoalRunner.outcome unit)) :=
  _maybe_launch_pantsd ;;
  with_workunit "setup"
    (requested ← gets _requested_goals;
     _expand_goals requested ;;
     target_specs ← gets _target_specs;
     fail_fast ← gets _fail_fast;
     _expand_specs target_specs fail_fast ;;
     emit AddScmInfo ;;
     quiet ← _is_quiet;
     invalidation_report ←
       call [UpdateReporting quiet]
            (GoalRunner.Returns (update_reporting env quiet));
     targets ← gets _targets;
     ret ({| target_roots := targets; requested_goals := requested |},
          invalidation_report)).

(** [GoalRunnerFactory.setup()]: the context and the [GoalRunner] built
    around it. *)
Definition setup : F (Context * GoalRunner.GoalRunner) :=
  '(context, invalidation_report) ← _setup_context;
  goals ← gets _goals;
  kill_nailguns ← gets _kill_nailguns;
  workdir ← gets pants_workdir;
  ret (context,
       {| GoalRunner.pants_workdir := workdir;
          GoalRunner._goals := goals;
          GoalRunner._invalidation_report := invalidation_report;
          GoalRunner._kill_nailguns := kill_nailguns |}).

(** The warnings of the disambiguation loop for a list of goal tokens:
    one for each token that the address mapper resolves, in order. *)
Definition ambiguity_warnings (goals : list string) : list event :=
  goals ≫= λ goal,
    match resolve_spec env goal with
    | Resolved => [LogWarning (ambiguous_warning goal)]
    | _ => []
    end.

(** The addresses a spec parses to; none when the parser raises. *)
Definition addresses_of (fail_fast : bool) (spec : string) : list Address :=
  match parse_addresses env spec fail_fast with
  | GoalRunner.Returns addresses => addresses
  | GoalRunner.Raises _ => []
  end.

(** The events of [_maybe_launch_pantsd]. *)
Definition pantsd_events (self : Factory) : list event :=
  if enable_pantsd self
  then [WorkunitEnter "pantsd"; LaunchPantsd; WorkunitExit "pantsd"]
  else [].

End Factory.

Arguments Env : clear implicits.
Arguments Factory : clear implicits.
Arguments Context : clear implicits.
Arguments event : clear implicits.

(** [sys.exit], the default [exiter]. *)
Definition sys_exit (code : Z) : GoalRunner.outcome unit :=
  GoalRunner.Raises (GoalRunner.SystemExit code).

End GoalRunnerFactory.

(** * Concrete inputs used by the examples below *)

Module GoalRunnerExamples.

Import GoalRunner.

Definition compile : Goal :=
  {| name := "compile"; ordered_task_names := ["jvm"; "python"] |}.

Definition frobnicate : Goal :=
  {| name := "frobnicate"; ordered_task_names := [] |}.

(** A runner set up not to kill nailguns, with no invalidation report. *)
Definition quiet_runner : GoalRunner :=
  {| pants_workdir := "/repo/.pants.d";
     _goals := [compile];
     _invalidation_report := None;
     _kill_nailguns := false |}.

(** The same runner with an invalidation report whose [report()] returns. *)
Definition reporting_runner : GoalRunner :=
  {| pants_workdir := "/repo/.pants.d";
     _goals := [compile];
     _invalidation_report := Some (Returns tt);
     _kill_nailguns := false |}.

(** A runner whose working directory lacks the suffix, asked for a goal
    without tasks. *)
Definition misplaced_runner : GoalRunner :=
  {| pants_workdir := "/tmp/build-out";
     _goals := [frobnicate];
     _invalidation_report := None;
     _kill_nailguns := false |}.

(** A runner with a proper working directory, asked for a goal without
    tasks among others. *)
Definition unknown_goal_runner : GoalRunner :=
  {| pants_workdir := "/repo/.pants.d";
     _goals := [compile; frobnicate];
     _invalidation_report := None;
     _kill_nailguns := false |}.

Definition interrupted : list Goal → outcome Z :=
  λ _, Raises KeyboardInterrupt.

Definition failing : list Goal → outcome Z := λ _, Returns 1.

Definition succeeding : list Goal → outcome Z := λ _, Returns 0.

End GoalRunnerExamples.

Module TargetExamples.

Import Target.

Definition A : ref := 0%nat.
Definition B : ref := 1%nat.
Definition C : ref := 2%nat.

Definition depends_on (targets : list ref) : Configuration :=
  {| name := Some "default"; dependencies := DepTarget <$> targets |}.

Definition target (name' : string) (configs : list Configuration) : Target :=
  {| target_name := Some name'; configurations := configs |}.

(** The three-node cycle A -> B -> C -> A. *)
Definition cycle : store :=
  <[A := target "a" [depends_on [B]]]>
    (<[B := target "b" [depends_on [C]]]>
       (<[C := target "c" [depends_on [A]]]> ∅)).

(** The chain A -> B -> C. *)
Definition chain : store :=
  <[A := target "a" [depends_on [B]]]>
    (<[B := target "b" [depends_on [C]]]>
       (<[C := target "c" []]> ∅)).

Definition default_config : Configuration :=
  {| name := Some "default"; dependencies := [] |}.

Definition default_with_dep : Configuration :=
  {| name := Some "default"; dependencies := [DepOther "//:lib"] |}.

Definition test_config : Configuration :=
  {| name := Some "test"; dependencies := [] |}.

Definition one_default : Target :=
  target "one" [test_config; default_config].

Definition two_defaults : Target :=
  target "two" [default_config; test_config; default_with_dep].

End TargetExamples.

Module SourcesExamples.

Import Sources.

(** A file system on which no pattern matches anything. *)
Definition no_files : fileset_wrapper_type → string → string → list string :=
  λ _ _ _, [].

(** A file system with two Python files and a text file below [src]. *)
Definition some_files : fileset_wrapper_type → string → string → list string :=
  λ w base_path spec,
    match w with
    | Globs => ["a.py"; "notes.txt"]
    | RGlobs => ["a.py"; "notes.txt"; "sub/b.py"]
    | ZGlobs => []
    end.

(** Sources of a subclass that declares no extensions: any file should do. *)
Definition any_sources : Sources :=
  {| name := None;
     files := Some ["a.py"; "README"];
     globs := Some "*";
     rglobs := None;
     zglobs := None;
     excludes := None;
     address := None;
     extensions := ∅ |}.

(** Sources of a subclass that accepts [.py] files, bound to an address. *)
Definition python_sources : Sources :=
  {| name := Some "lib";
     files := Some ["x.py"; "y.py"];
     globs := None;
     rglobs := None;
     zglobs := None;
     excludes :=
       Some {| name := None;
               files := Some ["x.py"];
               globs := None; rglobs := None; zglobs := None;
               excludes := None;
               address := None;
               extensions := {[ ".py" ]} |};
     address := Some {| spec_path := "src/python"; target_name := "lib" |};
     extensions := {[ ".py" ]} |}.

End SourcesExamples.

Module FactoryExamples.

Import GoalRunnerFactory.

(** Collaborators over a small repository: addresses and targets are
    both written as spec strings.  The token [src] is also a directory
    with targets; looking up [boom] fails with an I/O error; the spec
    [bad] does not parse; the target [a:y] lacks the requested tag. *)
Definition env : Env string string :=
  {| resolve_spec := λ goal,
       if String.eqb goal "src" then Resolved
       else if String.eqb goal "boom"
            then LookupRaises (GoalRunner.Exception "I/O error")
            else AddressLookupError;
     print_help := 0;
     exiter := sys_exit;
     by_name := λ goal,
       if String.eqb goal "compile" then GoalRunnerExamples.compile
       else {| GoalRunner.name := goal; GoalRunner.ordered_task_names := [] |};
     parse_addresses := λ spec fail_fast,
       if String.eqb spec "a::" then GoalRunner.Returns ["a:x"; "a:y"]
       else if String.eqb spec "a:x" then GoalRunner.Returns ["a:x"]
       else if String.eqb spec "bad"
            then GoalRunner.Raises (GoalRunner.Exception "BadSpecError")
            else GoalRunner.Returns [];
     get_target := λ address, address;
     tag_filter := λ target, negb (String.eqb target "a:y");
     has_quiet_task := λ goal, false;
     update_reporting := λ quiet, Some (GoalRunner.Returns tt) |}.

(** A fresh factory for the command line [compile src a:: a:x]. *)
Definition factory : Factory string :=
  {| _requested_goals := ["compile"; "src"];
     _target_specs := ["a::"; "a:x"];
     _help_request := false;
     _fail_fast := false;
     _explain := false;
     _kill_nailguns := true;
     enable_pantsd := false;
     pants_workdir := "/repo/.pants.d";
     _goals := [];
     _targets := [] |}.

(** The same command line with [--help]. *)
Definition help_factory : Factory string :=
  {| _requested_goals := ["compile"; "src"];
     _target_specs := ["a::"; "a:x"];
     _help_request := true;
     _fail_fast := false;
     _explain := false;
     _kill_nailguns := true;
     enable_pantsd := true;
     pants_workdir := "/repo/.pants.d";
     _goals := [];
     _targets := [] |}.


End FactoryExamples.

Module MoreExamples.

(** A runner whose invalidation report fails to write. *)
Definition broken_report_runner : GoalRunner.GoalRunner :=
  {| GoalRunner.pants_workdir := "/repo/.pants.d";
     GoalRunner._goals := [GoalRunnerExamples.compile];
     GoalRunner._invalidation_report :=
       Some (GoalRunner.Raises (GoalRunner.Exception "disk full"));
     GoalRunner._kill_nailguns := false |}.

(** The diamond A -> B, A -> C, B -> C. *)
Definition diamond : Target.store :=
  <[TargetExamples.A :=
      TargetExamples.target "a"
        [TargetExamples.depends_on [TargetExamples.B; TargetExamples.C]]]>
    (<[TargetExamples.B :=
         TargetExamples.target "b"
           [TargetExamples.depends_on [TargetExamples.C]]]>
       (<[TargetExamples.C := TargetExamples.target "c" []]> ∅)).

(** Sources that list only [x.py], used as [excludes]. *)
Definition x_only : Sources.Sources :=
  {| Sources.name := None;
     Sources.files := Some ["x.py"];
     Sources.globs := None;
     Sources.rglobs := None;
     Sources.zglobs := None;
     Sources.excludes := None;
     Sources.address := None;
     Sources.extensions := {[ ".py" ]} |}.

(** What [__init__] builds for the files [x.py] and [y.py] of a subclass
    that accepts [.py], with [x_only] as its [excludes]. *)
Definition built_sources : Sources.Sources :=
  {| Sources.name := None;
     Sources.files := Some ["x.py"; "y.py"];
     Sources.globs := None;
     Sources.rglobs := None;
     Sources.zglobs := None;
     Sources.excludes := Some x_only;
     Sources.address := None;
     Sources.extensions := {[ ".py" ]} |}.

(** A file system on which a pattern matches three files below
    [src/python] and one file anywhere else. *)
Definition based_files
    : Sources.fileset_wrapper_type → string → string → list string :=
  λ w base_path spec,
    if String.eqb base_path "src/python" then ["a.py"; "x.py"; "README"]
    else ["elsewhere.py"].

(** Python sources bound to the address [src/python:lib], with a listed
    file, a pattern and [x_only] as [excludes]. *)
Definition globbed_sources : Sources.Sources :=
  {| Sources.name := Some "lib";
     Sources.files := Some ["x.py"];
     Sources.globs := Some "*.py";
     Sources.rglobs := None;
     Sources.zglobs := None;
     Sources.excludes := Some x_only;
     Sources.address :=
       Some {| Sources.spec_path := "src/python";
               Sources.target_name := "lib" |};
     Sources.extensions := {[ ".py" ]} |}.

End MoreExamples.

(** * Properties of [GoalRunner] *)

Section GoalRunnerProperties.

Import GoalRunner.

Variable execute : list Goal → outcome Z.

Lemma unknown_goals_complete self goal :
  goal ∈ _goals self → ordered_task_names goal = [] →
  name goal ∈ unknown_goals self.
Proof.
  intros Hin Hnone. unfold unknown_goals.
  apply list_elem_of_fmap. exists goal. split; [done|].
  by apply list_elem_of_filter.
Qed.

Lemma unknown_goals_nonempty self :
  (∃ goal, goal ∈ _goals self ∧ ordered_task_names goal = []) →
  unknown_goals self ≠ [].
Proof.
  intros (goal & Hin & Hnone) Hnil.
  pose proof (unknown_goals_complete self goal Hin Hnone) as H.
  rewrite Hnil in H. by apply not_elem_of_nil in H.
Qed.

Local Ltac not_in_singleton :=
  let H := fresh in intros H; apply list_elem_of_singleton in H; discriminate H.

(** The three ways [_execute_engine] can go. *)
Lemma _execute_engine_bad_workdir self :
  Py.endswith (pants_workdir self) ".pants.d" = false →
  _execute_engine execute self =
    ([LogError (workdir_error (pants_workdir self))], Returns 1).
Proof. intros H. unfold _execute_engine. by rewrite H. Qed.

Lemma _execute_engine_unknown_goals self :
  Py.endswith (pants_workdir self) ".pants.d" = true →
  unknown_goals self ≠ [] →
  _execute_engine execute self =
    ([LogError (unknown_goals_error (unknown_goals self))], Returns 1).
Proof.
  intros H Hne. unfold _execute_engine. rewrite H. simpl.
  by destruct (unknown_goals self).
Qed.

Lemma _execute_engine_invokes self :
  Py.endswith (pants_workdir self) ".pants.d" = true →
  unknown_goals self = [] →
  _execute_engine execute self =
    match execute (_goals self) with
    | Returns result =>
        match _invalidation_report self with
        | Some (Returns _) => ([EngineExecute; InvalidationReport], Returns result)
        | Some (Raises e) => ([EngineExecute; InvalidationReport], Raises e)
        | None => ([EngineExecute], Returns result)
        end
    | Raises e => ([EngineExecute], Raises e)
    end.
Proof.
  intros H Hnil. unfold _execute_engine. rewrite H. simpl.
  rewrite Hnil.
  destruct (execute (_goals self)) as [result|e]; [|done].
  by destruct (_invalidation_report self) as [[[]|e]|].
Qed.

(** C5: when [KeyboardInterrupt] leaves [_execute_engine], [run] marks
    the root outcome as failed, then kills the nailguns whatever
    [_kill_nailguns] says, and the [KeyboardInterrupt] leaves [run];
    nothing else happens after the engine step. *)
Theorem run_keyboard_interrupt self :
  (_execute_engine execute self).2 = Raises KeyboardInterrupt →
  run execute self =
    ((_execute_engine execute self).1
       ++ [SetRootOutcome FAILURE; NailgunKillall],
     Raises KeyboardInterrupt).
Proof.
  unfold run. destruct (_execute_engine execute self) as [tr o]. simpl.
  intros ->. by rewrite <- app_assoc.
Qed.

(** C6: with a working directory that does not end in [.pants.d],
    [_execute_engine] logs the error and returns 1 at once; the engine's
    [execute] is not among the calls made. *)
Theorem bad_workdir_returns_1 self :
  Py.endswith (pants_workdir self) ".pants.d" = false →
  _execute_engine execute self =
    ([LogError (workdir_error (pants_workdir self))], Returns 1)
  ∧ EngineExecute ∉ (_execute_engine execute self).1.
Proof.
  intros H. rewrite (_execute_engine_bad_workdir self H). split; [done|].
  simpl. not_in_singleton.
Qed.

(** C7, amended: when some requested goal has no ordered task names,
    [_execute_engine] returns 1 after logging one error and never calls
    the engine; when the working directory ends in [.pants.d] that
    error is the list of the names of all such goals. *)
Theorem unknown_goals_return_1 self :
  (∃ goal, goal ∈ _goals self ∧ ordered_task_names goal = []) →
  (∃ msg, _execute_engine execute self = ([LogError msg], Returns 1)
          ∧ (Py.endswith (pants_workdir self) ".pants.d" = true →
             msg = unknown_goals_error (unknown_goals self)))
  ∧ (EngineExecute ∉ (_execute_engine execute self).1)
  ∧ (∀ goal, goal ∈ _goals self → ordered_task_names goal = [] →
             name goal ∈ unknown_goals self).
Proof.
  intros Hex. pose proof (unknown_goals_nonempty self Hex) as Hne.
  assert (∃ msg, _execute_engine execute self = ([LogError msg], Returns 1)
          ∧ (Py.endswith (pants_workdir self) ".pants.d" = true →
             msg = unknown_goals_error (unknown_goals self))) as Hmsg.
  { destruct (Py.endswith (pants_workdir self) ".pants.d") eqn:Hwd.
    - eexists. split; [by apply _execute_engine_unknown_goals|done].
    - eexists. split; [by apply _execute_engine_bad_workdir|done]. }
  split; [exact Hmsg|]. split.
  - destruct Hmsg as (msg & -> & _). simpl. not_in_singleton.
  - intros goal. apply unknown_goals_complete.
Qed.

(** C9, amended: [report()] of the invalidation report is called exactly
    when there is a report, both preconditions hold and the engine's
    [execute] returned a result code, zero or not; it is then the call
    that follows [execute]. *)
Theorem invalidation_report_iff self :
  (InvalidationReport ∈ (_execute_engine execute self).1 ↔
     is_Some (_invalidation_report self)
     ∧ Py.endswith (pants_workdir self) ".pants.d" = true
     ∧ unknown_goals self = []
     ∧ ∃ result, execute (_goals self) = Returns result)
  ∧ (InvalidationReport ∈ (_execute_engine execute self).1 →
     (_execute_engine execute self).1 = [EngineExecute; InvalidationReport]).
Proof.
  destruct (Py.endswith (pants_workdir self) ".pants.d") eqn:Hwd.
  2: { rewrite (_execute_engine_bad_workdir self Hwd). simpl.
       split; [split|]; [not_in_singleton | by intros (_ & ? & _)
                        | not_in_singleton]. }
  destruct (decide (unknown_goals self = [])) as [Hnil|Hne].
  2: { rewrite (_execute_engine_unknown_goals self Hwd Hne). simpl.
       split; [split|]; [not_in_singleton | by intros (_ & _ & ? & _)
                        | not_in_singleton]. }
  rewrite (_execute_engine_invokes self Hwd Hnil).
  destruct (execute (_goals self)) as [result|e].
  - destruct (_invalidation_report self) as [[[]|e']|]; simpl.
    + split; [split|done]; [by eauto 6|].
      intros _. apply list_elem_of_further. apply list_elem_of_here.
    + split; [split|done]; [by eauto 6|].
      intros _. apply list_elem_of_further. apply list_elem_of_here.
    + split; [split|]; [not_in_singleton | | not_in_singleton].
      intros (Hs & _). by destruct Hs.
  - simpl. split; [split|]; [not_in_singleton | | not_in_singleton].
    by intros (_ & _ & _ & result & ?).
Qed.

End GoalRunnerProperties.

Section GoalRunnerChecks.

Import GoalRunner GoalRunnerExamples.

Lemma run_keyboard_interrupt_witness :
  (_execute_engine interrupted quiet_runner).2 = Raises KeyboardInterrupt
  ∧ _kill_nailguns quiet_runner = false
  ∧ run interrupted quiet_runner =
      ([EngineExecute; SetRootOutcome FAILURE; NailgunKillall],
       Raises KeyboardInterrupt).
Proof.
  split; [reflexivity|]. split; [reflexivity|].
  apply (run_keyboard_interrupt interrupted quiet_runner). reflexivity.
Defined.

Lemma bad_workdir_returns_1_witness :
  _execute_engine succeeding misplaced_runner =
    ([LogError (workdir_error "/tmp/build-out")], Returns 1)
  ∧ EngineExecute ∉ (_execute_engine succeeding misplaced_runner).1.
Proof.
  apply (bad_workdir_returns_1 succeeding misplaced_runner). reflexivity.
Defined.

(** C7 as stated fails: here a requested goal has no ordered task
    names, yet the one error logged is about the working directory and
    does not mention the goal. *)
Lemma unknown_goals_bad_workdir_counterexample :
  frobnicate ∈ _goals misplaced_runner
  ∧ ordered_task_names frobnicate = []
  ∧ ∃ msg, _execute_engine succeeding misplaced_runner =
             ([LogError msg], Returns 1)
           ∧ msg ≠ unknown_goals_error (unknown_goals misplaced_runner)
           ∧ String.index 0 (name frobnicate) msg = None.
Proof.
  split; [apply list_elem_of_here|]. split; [reflexivity|].
  eexists. split; [reflexivity|]. split; [discriminate|reflexivity].
Defined.

Lemma unknown_goals_return_1_witness :
  (∃ msg, _execute_engine succeeding unknown_goal_runner =
            ([LogError msg], Returns 1)
          ∧ (Py.endswith (pants_workdir unknown_goal_runner) ".pants.d" = true →
             msg = unknown_goals_error (unknown_goals unknown_goal_runner)))
  ∧ (EngineExecute ∉ (_execute_engine succeeding unknown_goal_runner).1)
  ∧ (∀ goal, goal ∈ _goals unknown_goal_runner →
             ordered_task_names goal = [] →
             name goal ∈ unknown_goals unknown_goal_runner).
Proof.
  apply (unknown_goals_return_1 succeeding unknown_goal_runner).
  exists frobnicate. split; [|reflexivity].
  apply list_elem_of_further, list_elem_of_here.
Defined.

(** C9 as stated fails: the engine returns 1, the run is marked failed,
    and the invalidation report has been emitted all the same. *)
Lemma invalidation_report_on_failure_counterexample :
  run failing reporting_runner =
    ([EngineExecute; InvalidationReport; SetRootOutcome FAILURE], Returns 1)
  ∧ InvalidationReport ∈ (_execute_engine failing reporting_runner).1.
Proof.
  split; [reflexivity|].
  apply list_elem_of_further, list_elem_of_here.
Defined.

(** On a succeeding run with a report, the report follows the engine. *)
Lemma invalidation_report_iff_witness :
  InvalidationReport ∈ (_execute_engine succeeding reporting_runner).1
  ∧ (_execute_engine succeeding reporting_runner).1
    = [EngineExecute; InvalidationReport].
Proof.
  destruct (invalidation_report_iff succeeding reporting_runner)
    as [Hiff Htrace].
  assert (InvalidationReport ∈ (_execute_engine succeeding reporting_runner).1)
    as Hin.
  { apply Hiff. split; [by exists (Returns tt)|].
    split; [reflexivity|]. split; [reflexivity|]. by exists 0. }
  split; [exact Hin|exact (Htrace Hin)].
Defined.

End GoalRunnerChecks.

(** * Properties of [Target] *)

Section SelectConfiguration.

Import Target.

Implicit Types (self : Target) (config : Configuration).

Lemma filter_no_match (name' : option string) (configs : list Configuration) :
  (∀ config, config ∈ configs → name config ≠ name') →
  filter (λ config, name config = name') configs = [].
Proof.
  induction configs as [|c configs IH]; intros Hnone; [done|].
  rewrite filter_cons_False.
  - apply IH. intros config Hin. apply Hnone. by apply list_elem_of_further.
  - apply Hnone, list_elem_of_here.
Qed.

(** C4: [select_configuration] returns the configuration named [name']
    when exactly one position of [configurations] holds such a
    configuration; it raises [ConfigurationNotFound] when no position
    does, and also when two positions do. *)
Theorem select_configuration_exactly_one self (name' : option string) :
  (∀ before config after,
      configurations self = before ++ config :: after →
      name config = name' →
      (∀ c, c ∈ before ++ after → name c ≠ name') →
      select_configuration self name' = inr config)
  ∧ ((∀ c, c ∈ configurations self → name c ≠ name') →
      select_configuration self name' = inl (ConfigurationNotFound name' []))
  ∧ (∀ l1 c1 l2 c2 l3,
      configurations self = l1 ++ c1 :: l2 ++ c2 :: l3 →
      name c1 = name' → name c2 = name' →
      ∃ matches,
        select_configuration self name' =
          inl (ConfigurationNotFound name' matches)
        ∧ c1 ∈ matches ∧ c2 ∈ matches).
Proof.
  unfold select_configuration. repeat split.
  - intros before config after -> Hname Hothers.
    rewrite filter_app, filter_cons_True by done.
    rewrite !filter_no_match; [done| |].
    + intros c Hc. apply Hothers, elem_of_app. by right.
    + intros c Hc. apply Hothers, elem_of_app. by left.
  - intros Hnone. by rewrite filter_no_match.
  - intros l1 c1 l2 c2 l3 -> H1 H2.
    rewrite filter_app, filter_cons_True by done.
    rewrite filter_app, filter_cons_True by done.
    set (f := filter (λ config, name config = name')).
    exists (f l1 ++ c1 :: f l2 ++ c2 :: f l3). split.
    + destruct (f l1) as [|? [|? ?]]; simpl; try done;
        by destruct (f l2).
    + split.
      * apply elem_of_app. right. apply list_elem_of_here.
      * apply elem_of_app. right. apply list_elem_of_further.
        apply elem_of_app. right. apply list_elem_of_here.
Qed.

End SelectConfiguration.

Section WalkTargets.

Import Target.
Local Open Scope nat_scope.

Variable h : store.
Variable self : ref.
Variable postorder : bool.

(** The candidates of the walk: the direct dependencies of [self]. *)
Local Abbreviation D := (list_to_set (target_deps h self) : gset ref).

Local Abbreviation body fuel :=
  (λ d : dep, match d with
              | DepTarget t => walk h self postorder fuel t
              | DepOther _ => skip
              end).

Lemma yields_fresh_skip fuel : yields_fresh D fuel skip ∅.
Proof.
  intros v _. exists [], v. unfold skip.
  split; [done|]. split; [constructor|].
  split; [by intros y ?%elem_of_nil|]. set_solver.
Qed.

Lemma yields_fresh_mono fuel g (must must' : gset ref) :
  must' ⊆ must → yields_fresh D fuel g must → yields_fresh D fuel g must'.
Proof.
  intros Hsub Hg v Hv.
  destruct (Hg v Hv) as (ys & v' & ? & ? & ? & ? & ? & ?).
  exists ys, v'. repeat split; try done. set_solver.
Qed.

Lemma unvisited_shrinks (v v' : gset ref) fuel :
  v ⊆ v' → size (D ∖ v) < fuel → size (D ∖ v') < fuel.
Proof.
  intros Hsub Hlt. eapply Nat.le_lt_trans; [|exact Hlt].
  apply subseteq_size. set_solver.
Qed.

Lemma yields_fresh_seq fuel g1 g2 (must1 must2 : gset ref) :
  yields_fresh D fuel g1 must1 → yields_fresh D fuel g2 must2 →
  yields_fresh D fuel (seq g1 g2) (must1 ∪ must2).
Proof.
  intros H1 H2 v Hv.
  destruct (H1 v Hv) as (ys & v1 & E1 & ND1 & F1 & -> & S1 & M1).
  destruct (H2 (v ∪ list_to_set ys)) as (zs & v2 & E2 & ND2 & F2 & -> & S2 & M2).
  { eapply unvisited_shrinks; [|exact Hv]. set_solver. }
  exists (ys ++ zs), (v ∪ list_to_set ys ∪ list_to_set zs).
  unfold seq. rewrite E1, E2. split; [done|]. split.
  { apply NoDup_app. split; [done|]. split; [|done].
    intros y Hy Hz. apply (F2 y Hz). set_solver. }
  split.
  { intros y [Hy|Hy]%elem_of_app; [by apply F1|].
    intros Hv'. apply (F2 y Hy). set_solver. }
  rewrite list_to_set_app_L. set_solver.
Qed.

Lemma yields_fresh_dependencies fuel (deps : list dep) :
  (∀ t, t ∈ D → yields_fresh D fuel (walk h self postorder fuel t) {[t]}) →
  (∀ t, DepTarget t ∈ deps → t ∈ D) →
  yields_fresh D fuel (for_each deps (body fuel))
               (list_to_set (omap target_of deps)).
Proof.
  intros Hwalk. induction deps as [|d deps IH]; intros Hin.
  { apply yields_fresh_skip. }
  assert (yields_fresh D fuel (for_each deps (body fuel))
                       (list_to_set (omap target_of deps))) as Hrest.
  { apply IH. intros t Ht. apply Hin. by apply list_elem_of_further. }
  destruct d as [t|repr]; simpl.
  - apply yields_fresh_seq; [|done].
    apply Hwalk, Hin, list_elem_of_here.
  - eapply yields_fresh_mono; [|apply yields_fresh_seq;
                                 [apply yields_fresh_skip|exact Hrest]].
    set_solver.
Qed.

Lemma yields_fresh_configurations fuel (configs : list Configuration) :
  (∀ t, t ∈ D → yields_fresh D fuel (walk h self postorder fuel t) {[t]}) →
  (∀ c t, c ∈ configs → DepTarget t ∈ dependencies c → t ∈ D) →
  yields_fresh D fuel
    (for_each configs (λ c, for_each (dependencies c) (body fuel)))
    (list_to_set (configs ≫= λ c, omap target_of (dependencies c))).
Proof.
  intros Hwalk. induction configs as [|c configs IH]; intros Hin.
  { apply yields_fresh_skip. }
  simpl. rewrite list_to_set_app_L. apply yields_fresh_seq.
  - apply yields_fresh_dependencies; [done|].
    intros t. apply Hin, list_elem_of_here.
  - apply IH. intros c' t Hc'. apply Hin. by apply list_elem_of_further.
Qed.

Lemma target_deps_edge t : t ∈ target_deps h self ↔ edge h self t.
Proof.
  unfold target_deps, edge. rewrite list_elem_of_bind. split.
  - intros (c & Ht & Hc). exists c. split; [done|].
    apply list_elem_of_omap in Ht as (d & Hd & Heq).
    destruct d; simpl in Heq; by simplify_eq.
  - intros (c & Hc & Ht). exists c. split; [|done].
    apply list_elem_of_omap. by exists (DepTarget t).
Qed.

(** The loop of [walk] over [self.configurations]. *)
Lemma yields_fresh_loop fuel :
  (∀ t, t ∈ D → yields_fresh D fuel (walk h self postorder fuel t) {[t]}) →
  yields_fresh D fuel
    (for_each (configurations_of h self)
              (λ c, for_each (dependencies c) (body fuel)))
    D.
Proof.
  intros Hwalk. apply yields_fresh_configurations; [done|].
  intros c t Hc Ht. apply elem_of_list_to_set, target_deps_edge.
  by exists c.
Qed.

(** One unfolding of [walk] at a target that was not visited. *)
Lemma walk_unvisited fuel t (v : gset ref) :
  t ∉ v →
  walk h self postorder (S fuel) t v =
    match for_each (configurations_of h self)
                   (λ c, for_each (dependencies c) (body fuel))
                   ({[t]} ∪ v) with
    | Some (ys, v') => Some (if postorder then ys ++ [t] else t :: ys, v')
    | None => None
    end.
Proof.
  intros Hv. simpl. rewrite decide_False by done.
  unfold seq, yield, skip.
  destruct postorder; simpl;
    by destruct (for_each _ _ _) as [[ys v']|]; rewrite ?app_nil_r.
Qed.

Lemma walk_yields_fresh fuel t :
  t ∈ D → yields_fresh D fuel (walk h self postorder fuel t) {[t]}.
Proof.
  revert t. induction fuel as [|fuel IH]; intros t Ht v Hv; [lia|].
  destruct (decide (t ∈ v)) as [Hin|Hout].
  { exists [], v. simpl. rewrite decide_True by done. unfold skip.
    split; [done|]. split; [constructor|].
    split; [by intros y ?%elem_of_nil|]. set_solver. }
  rewrite walk_unvisited by done.
  destruct (yields_fresh_loop fuel IH ({[t]} ∪ v))
    as (ys & v' & E & ND & F & -> & S1 & M).
  { assert (D ∖ ({[t]} ∪ v) ⊂ D ∖ v) as Hlt%subset_size by set_solver. lia. }
  rewrite E.
  assert (t ∉ ys) as Hty by (intros Hy; apply (F t Hy); set_solver).
  exists (if postorder then ys ++ [t] else t :: ys),
         ({[t]} ∪ v ∪ list_to_set ys).
  split; [done|]. split.
  { destruct postorder.
    - apply NoDup_app. split; [done|]. split; [|apply NoDup_singleton].
      by intros y Hy ->%list_elem_of_singleton.
    - by apply NoDup_cons. }
  split.
  { intros y Hy Hyv.
    assert (y = t ∨ y ∈ ys) as [->|Hys].
    { destruct postorder; set_solver. }
    - done.
    - apply (F y Hys). set_solver. }
  destruct postorder; rewrite ?list_to_set_app_L; set_solver.
Qed.

Lemma size_target_deps (v : gset ref) :
  size (D ∖ v) < 1 + length (target_deps h self).
Proof.
  apply Nat.lt_succ_r. etrans; [apply subseteq_size|].
  - apply subseteq_difference_l. reflexivity.
  - generalize (target_deps h self). intros l.
    induction l as [|x l IH].
    + by rewrite list_to_set_nil, size_empty.
    + rewrite list_to_set_cons, size_union_alt, size_singleton. simpl.
      assert (size (list_to_set l ∖ {[x]} : gset ref) ≤ size (list_to_set l : gset ref)).
      { apply subseteq_size. set_solver. }
      lia.
Qed.

(** What [walk_targets] does on every store: it ends, and it yields
    [self] and the targets that [self] depends on directly, each once
    and nothing else. *)
Lemma walk_targets_direct :
  ∃ ys, walk_targets h self postorder = Some ys
        ∧ NoDup ys
        ∧ ∀ t, t ∈ ys ↔ t = self ∨ edge h self t.
Proof.
  unfold walk_targets.
  change (2 + length (target_deps h self))
    with (S (1 + length (target_deps h self))).
  rewrite walk_unvisited by set_solver.
  destruct (yields_fresh_loop (1 + length (target_deps h self))
              (λ t, walk_yields_fresh _ t) ({[self]} ∪ ∅))
    as (ys & v' & E & ND & F & -> & S1 & M).
  { apply size_target_deps. }
  rewrite E. simpl.
  assert (self ∉ ys) as Hself by (intros Hy; apply (F self Hy); set_solver).
  eexists. split; [done|]. split.
  { destruct postorder.
    - apply NoDup_app. split; [done|]. split; [|apply NoDup_singleton].
      by intros y Hy ->%list_elem_of_singleton.
    - by apply NoDup_cons. }
  intros t. rewrite <- target_deps_edge.
  assert (t ∈ (if postorder then ys ++ [self] else self :: ys)
          ↔ t = self ∨ t ∈ ys) as ->.
  { destruct postorder; set_solver. }
  split.
  - intros [->|Hy]; [by left|]. right.
    apply (elem_of_list_to_set (C:=gset ref)). set_solver.
  - intros [->|Ht]; [by left|].
    assert (t ∈ ({[self]} ∪ ∅ ∪ list_to_set ys : gset ref)) as Hin.
    { apply M. by apply elem_of_list_to_set. }
    set_solver.
Qed.

(** Fuel only bounds the recursion: a walk that ends with some fuel ends
    the same way with more. *)
Lemma seq_more g1 g1' g2 g2' :
  (∀ v r, g1 v = Some r → g1' v = Some r) →
  (∀ v r, g2 v = Some r → g2' v = Some r) →
  ∀ v r, seq g1 g2 v = Some r → seq g1' g2' v = Some r.
Proof.
  intros H1 H2 v r. unfold seq.
  destruct (g1 v) as [[ys v1]|] eqn:E1; [|done].
  rewrite (H1 _ _ E1).
  destruct (g2 v1) as [[zs v2]|] eqn:E2; [|done].
  by rewrite (H2 _ _ E2).
Qed.

Lemma for_each_more {X} (xs : list X) (f f' : X → G) :
  (∀ x v r, f x v = Some r → f' x v = Some r) →
  ∀ v r, for_each xs f v = Some r → for_each xs f' v = Some r.
Proof.
  intros Hf. induction xs as [|x xs IH]; simpl; [done|].
  apply seq_more; [apply Hf|apply IH].
Qed.

Lemma walk_more_fuel fuel t (v : gset ref) r :
  walk h self postorder fuel t v = Some r →
  walk h self postorder (S fuel) t v = Some r.
Proof.
  revert t v r. induction fuel as [|fuel IH]; intros t v r; [done|].
  intros Hwalk. simpl in Hwalk. change (walk h self postorder (S (S fuel)) t v)
    with (if decide (t ∈ v) then skip v
          else seq (if negb postorder then yield t else skip)
                 (seq (for_each (configurations_of h self)
                         (λ c, for_each (dependencies c) (body (S fuel))))
                      (if postorder then yield t else skip))
                 ({[t]} ∪ v)).
  destruct (decide (t ∈ v)); [done|].
  revert Hwalk. apply seq_more; [done|].
  apply seq_more; [|done].
  apply for_each_more. intros c. apply for_each_more.
  intros [t'|repr]; [apply IH|done].
Qed.

Lemma walk_targets_any_fuel fuel ys :
  walk_targets h self postorder = Some ys →
  2 + length (target_deps h self) ≤ fuel →
  fst <$> walk h self postorder fuel self ∅ = Some ys.
Proof.
  unfold walk_targets. intros Hys Hle.
  induction Hle as [|fuel Hle IH]; [done|].
  destruct (walk h self postorder fuel self ∅) as [r|] eqn:E; [|done].
  by rewrite (walk_more_fuel _ _ _ _ E).
Qed.

End WalkTargets.

Section TargetChecks.

Import Target TargetExamples.

Lemma select_configuration_exactly_one_witness :
  select_configuration one_default (Some "default") = inr default_config
  ∧ select_configuration one_default (Some "release") =
      inl (ConfigurationNotFound (Some "release") [])
  ∧ ∃ matches,
      select_configuration two_defaults (Some "default") =
        inl (ConfigurationNotFound (Some "default") matches)
      ∧ default_config ∈ matches ∧ default_with_dep ∈ matches.
Proof.
  destruct (select_configuration_exactly_one one_default (Some "default"))
    as (Hone & _ & _).
  destruct (select_configuration_exactly_one one_default (Some "release"))
    as (_ & Hnone & _).
  destruct (select_configuration_exactly_one two_defaults (Some "default"))
    as (_ & _ & Htwo).
  split; [|split].
  - apply (Hone [test_config] default_config []); [reflexivity..|].
    intros c ->%list_elem_of_singleton. discriminate.
  - apply Hnone. simpl.
    intros c [->|[->|[]%elem_of_nil]%elem_of_cons]%elem_of_cons; discriminate.
  - apply (Htwo [] default_config [test_config] default_with_dep []);
      reflexivity.
Defined.

Lemma cycle_edges : edge cycle A B ∧ edge cycle B C ∧ edge cycle C A.
Proof.
  repeat split; apply target_deps_edge; apply list_elem_of_here.
Qed.

(** C1 fails on the code.  On the cycle A -> B -> C -> A, [walk_targets]
    from A ends and yields B and A only, in either order of traversal,
    although C is reachable from A: below A, [walk] keeps iterating over
    the configurations of A. *)
Theorem walk_targets_misses_reachable :
  walk_targets cycle A true = Some [B; A]
  ∧ walk_targets cycle A false = Some [A; B]
  ∧ reachable cycle A C
  ∧ C ∉ [B; A].
Proof.
  split; [vm_compute; reflexivity|]. split; [vm_compute; reflexivity|].
  destruct cycle_edges as (HAB & HBC & _). split.
  - eapply rtc_l; [exact HAB|]. by apply rtc_once.
  - intros [Heq|[Heq|[]%elem_of_nil]%elem_of_cons]%elem_of_cons;
      discriminate Heq.
Qed.

(** The same on the chain A -> B -> C, which has no cycle. *)
Lemma walk_targets_chain :
  walk_targets chain A true = Some [B; A] ∧ reachable chain A C.
Proof.
  split; [vm_compute; reflexivity|].
  eapply rtc_l; [|apply rtc_once]; apply target_deps_edge;
    apply list_elem_of_here.
Qed.

End TargetChecks.

(** * Properties of [Variants.merge] *)

Section VariantsMerge.

Import Variants.

Implicit Types (m : gmap string string) (k v : string).

Lemma compare_refl_eq (s : string) : String_as_OT.compare s s = Eq.
Proof.
  destruct (String_as_OT.compare_spec s s) as [_|Hlt|Hlt]; [done| |];
    by apply (irreflexivity String_as_OT.lt) in Hlt.
Qed.

Lemma key_le_lt_eq (x y : string * string) :
  key_le x y ↔ x.1 = y.1 ∨ key_lt x y.
Proof.
  unfold key_le, key_lt. split.
  - destruct (String_as_OT.compare_spec x.1 y.1); [by left|by right|done].
  - intros [-> | ->]; [by rewrite compare_refl_eq|done].
Qed.

Global Instance key_le_total : Total key_le.
Proof.
  intros x y. unfold key_le.
  destruct (String_as_OT.compare_spec x.1 y.1) as [Heq|Hlt|Hgt].
  - by left.
  - by left.
  - right. unfold String_as_OT.lt in Hgt. by rewrite Hgt.
Qed.

Global Instance key_le_trans : Transitive key_le.
Proof.
  intros x y z. rewrite !key_le_lt_eq. unfold key_lt.
  intros [Hxy|Hxy] [Hyz|Hyz].
  - left. congruence.
  - right. by rewrite Hxy.
  - right. by rewrite <- Hyz.
  - right. exact (transitivity (R:=String_as_OT.lt) Hxy Hyz).
Qed.

(** A list sorted by key whose keys are distinct is strictly sorted. *)
Lemma sorted_distinct_keys (items : list (string * string)) :
  Sorted key_le items → NoDup items.*1 → StronglySorted key_lt items.
Proof.
  intros Hs%Sorted_StronglySorted; [|apply _].
  induction Hs as [|x items Hs IH Hall]; intros Hnd; [constructor|].
  apply NoDup_cons in Hnd as [Hx Hnd].
  constructor; [by apply IH|].
  rewrite Forall_forall in Hall |- *. intros y Hy.
  destruct (proj1 (key_le_lt_eq x y) (Hall y Hy)) as [Heq|Hlt]; [|done].
  destruct Hx. rewrite Heq. apply list_elem_of_fmap. by exists y.
Qed.

(** What the loop [merged[key] = value] leaves in the dictionary. *)
Lemma update_lookup m (pairs : list (string * string)) k v :
  NoDup pairs.*1 →
  update m pairs !! k = Some v ↔
    (k, v) ∈ pairs ∨ ((k ∉ pairs.*1) ∧ m !! k = Some v).
Proof.
  unfold update. revert m.
  induction pairs as [|[k' v'] pairs IH]; intros m Hnd; simpl.
  { split; [intros ?; right; split; [apply not_elem_of_nil|done]|].
    by intros [?%elem_of_nil|[_ ?]]. }
  apply NoDup_cons in Hnd as [Hk' Hnd]. rewrite (IH _ Hnd).
  rewrite elem_of_cons, not_elem_of_cons.
  destruct (decide (k = k')) as [-> | Hne].
  - rewrite lookup_insert_eq. split.
    + intros [Hin|[_ [= ->]]]; [|by left; left].
      destruct Hk'. apply list_elem_of_fmap. by exists (k', v).
    + intros [[[= ->]|Hin]|[[? _] _]]; [|left; done|done].
      right. split; [done|done].
  - rewrite lookup_insert_ne by done. split.
    + intros [Hin|[? ?]]; [by left; right|by right].
    + intros [[[= ? ?]|Hin]|[[_ ?] ?]]; [done|by left|by right].
Qed.

Lemma dict_lookup (pairs : list (string * string)) k v :
  NoDup pairs.*1 → dict pairs !! k = Some v ↔ (k, v) ∈ pairs.
Proof.
  intros Hnd. unfold dict. fold (update ∅ pairs).
  rewrite (update_lookup _ _ _ _ Hnd), lookup_empty. naive_solver.
Qed.

Lemma sorted_by_key_items m :
  StronglySorted key_lt (sorted_by_key (map_to_list m))
  ∧ NoDup (sorted_by_key (map_to_list m)).*1
  ∧ ∀ k v, (k, v) ∈ sorted_by_key (map_to_list m) ↔ m !! k = Some v.
Proof.
  unfold sorted_by_key.
  pose proof (merge_sort_Permutation key_le (map_to_list m)) as Hperm.
  assert (NoDup (merge_sort key_le (map_to_list m)).*1) as Hnd.
  { rewrite Hperm. apply NoDup_fst_map_to_list. }
  split; [|split; [done|]].
  - apply sorted_distinct_keys; [|done]. apply Sorted_merge_sort, _.
  - intros k v. rewrite Hperm. apply elem_of_map_to_list.
Qed.

Lemma list_truthy_items {A} (l : option (list A)) :
  Py.list_truthy l = true ↔ Py.items l ≠ [].
Proof. by destruct l as [[|]|]. Qed.

Lemma list_falsy_items {A} (l : option (list A)) :
  Py.list_truthy l = false ↔ Py.items l = [].
Proof. by destruct l as [[|]|]. Qed.

Lemma falsy_iff (x : option iterable) :
  truthy x = false ↔ x = None ∨ x = Some (Sequence []).
Proof. destruct x as [[[|p l]|l]|]; naive_solver. Qed.

Lemma falsy_pairs_of (x : option iterable) :
  truthy x = false → pairs_of x = [].
Proof. by destruct x as [[[|p l]|l]|]. Qed.

(** C3, amended: [merge] returns [None] exactly when each side is absent
    or an empty sequence; an empty iterator does not count as empty.
    Otherwise it returns a tuple with distinct keys that holds the pairs
    of [right] and those pairs of [left] whose key [right] does not have.
    With both sides truthy the tuple is sorted by key. *)
Theorem merge_right_biased (left right : option iterable) :
  NoDup (keys left) → NoDup (keys right) →
  (merge left right = None ↔
     (left = None ∨ left = Some (Sequence []))
     ∧ (right = None ∨ right = Some (Sequence [])))
  ∧ ∀ t, merge left right = Some t →
      NoDup t.*1
      ∧ (∀ k v, (k, v) ∈ t ↔
           (k, v) ∈ pairs_of right
           ∨ ((k, v) ∈ pairs_of left ∧ k ∉ keys right))
      ∧ (truthy left = true → truthy right = true → StronglySorted key_lt t).
Proof.
  intros Hl Hr. rewrite <- !falsy_iff. unfold merge, keys in *.
  destruct (truthy left) eqn:El; simpl.
  2: { apply falsy_pairs_of in El.
       destruct (truthy right) eqn:Er.
       - split; [naive_solver|].
         intros t [= <-]. rewrite El. split; [done|].
         split; [|naive_solver]. intros k v. rewrite elem_of_nil. naive_solver.
       - split; [naive_solver|]. by intros t. }
  destruct (truthy right) eqn:Er; simpl.
  2: { apply falsy_pairs_of in Er. split; [naive_solver|].
       intros t [= <-]. rewrite Er. split; [done|].
       split; [|naive_solver]. intros k v. simpl.
       rewrite elem_of_nil. pose proof (not_elem_of_nil k). naive_solver. }
  split; [naive_solver|].
  intros t [= <-].
  destruct (sorted_by_key_items (update (dict (pairs_of left)) (pairs_of right)))
    as (Hsorted & Hnd & Hmem).
  split; [done|]. split; [|naive_solver].
  intros k v. rewrite Hmem, (update_lookup _ _ _ _ Hr), (dict_lookup _ _ _ Hl).
  naive_solver.
Qed.

End VariantsMerge.

Section VariantsChecks.

Import Variants.

(** The example of the specification: [b] is overridden, the result is
    sorted. *)
Lemma merge_right_biased_witness :
  NoDup (keys (Some (Sequence [("a", "1"); ("b", "2")])))
  ∧ NoDup (keys (Some (Sequence [("b", "3"); ("c", "4")])))
  ∧ merge (Some (Sequence [("a", "1"); ("b", "2")]))
          (Some (Sequence [("b", "3"); ("c", "4")]))
    = Some [("a", "1"); ("b", "3"); ("c", "4")]
  ∧ StronglySorted key_lt [("a", "1"); ("b", "3"); ("c", "4")].
Proof.
  assert (NoDup (keys (Some (Sequence [("a", "1"); ("b", "2")])))) as Hl
    by compute_done.
  assert (NoDup (keys (Some (Sequence [("b", "3"); ("c", "4")])))) as Hr
    by compute_done.
  assert (merge (Some (Sequence [("a", "1"); ("b", "2")]))
                (Some (Sequence [("b", "3"); ("c", "4")]))
          = Some [("a", "1"); ("b", "3"); ("c", "4")]) as Hm
    by (vm_compute; reflexivity).
  split; [exact Hl|]. split; [exact Hr|]. split; [exact Hm|].
  destruct (merge_right_biased _ _ Hl Hr) as [_ Hsome].
  destruct (Hsome _ Hm) as (_ & _ & Hsorted).
  apply Hsorted; reflexivity.
Defined.

(** C3 as stated fails twice.  An empty iterator is truthy: with it as
    [left] and [right] absent, both sides are empty and yet the result is
    the empty tuple, not [None].  And with [left] absent, the list
    [right] comes back in the order it was given, which need not be
    sorted by key. *)
Lemma merge_unsorted_counterexample :
  pairs_of (Some (Iterator [])) = []
  ∧ merge (Some (Iterator [])) None = Some []
  ∧ NoDup (keys None)
  ∧ NoDup (keys (Some (Sequence [("b", "1"); ("a", "2")])))
  ∧ merge None (Some (Sequence [("b", "1"); ("a", "2")]))
    = Some [("b", "1"); ("a", "2")]
  ∧ ¬ Sorted key_le [("b", "1"); ("a", "2")].
Proof.
  split; [reflexivity|]. split; [reflexivity|].
  split; [constructor|].
  split; [compute_done|].
  split; [reflexivity|].
  intros Hs. apply Sorted_inv in Hs as [_ Hhd].
  apply HdRel_inv in Hhd. by apply Hhd.
Defined.

End VariantsChecks.

(** * Properties of [Sources] *)

Section SourcesProperties.

Import Sources.

Variable fileset : fileset_wrapper_type → string → string → list string.

Implicit Types (self : Sources) (f : string).

(** The extension [_accept_file] looks at. *)
Local Abbreviation ext f := (PosixPath.splitext f).2.

Lemma _accept_file_spec self f :
  _accept_file self f = true ↔ ext f ∈ extensions self.
Proof. unfold _accept_file. apply bool_decide_eq_true. Qed.

(** The loop over [files] in [__init__] passes when every file is
    accepted, and otherwise raises for the first file that is not. *)
Lemma check_files_spec self (files' : list string) :
  (check_files self files' = inr tt ∧ ∀ f, f ∈ files' → ext f ∈ extensions self)
  ∨ (∃ before f after,
       files' = before ++ f :: after
       ∧ (∀ f', f' ∈ before → ext f' ∈ extensions self)
       ∧ (ext f ∉ extensions self)
       ∧ check_files self files' = inl (ValueError_not_a_file f (extensions self))).
Proof.
  induction files' as [|f files' IH]; simpl.
  { left. split; [done|]. by intros f ?%elem_of_nil. }
  destruct (_accept_file self f) eqn:Hf; simpl.
  - apply _accept_file_spec in Hf.
    destruct IH as [[Hok Hall]|(before & f' & after & -> & Hbefore & Hf' & Herr)].
    + left. split; [done|].
      intros f0 [-> | Hin]%elem_of_cons; [done|by apply Hall].
    + right. exists (f :: before), f', after. split; [done|].
      split; [|done].
      intros f0 [-> | Hin]%elem_of_cons; [done|by apply Hbefore].
  - right. exists [], f, files'. split; [done|].
    split; [by intros f0 ?%elem_of_nil|]. split; [|done].
    intros Hin. apply _accept_file_spec in Hin. congruence.
Qed.

(** C8: with [files] and [extensions] both non-empty, [__init__] gives a
    [Sources] only if the extension of every listed file is in
    [extensions]; if some file has another extension, it raises the
    [ValueError] that names the first such file. *)
Theorem init_checks_extensions (extensions' : gset string)
    (name' : option string) (files' : option (list string))
    (globs' rglobs' zglobs' : option string) (excludes' : option Sources) :
  Py.items files' ≠ [] →
  extensions' ≠ ∅ →
  (∀ self,
      __init__ extensions' name' files' globs' rglobs' zglobs' excludes'
        = inr self →
      ∀ f, f ∈ Py.items files' → ext f ∈ extensions')
  ∧ ((∃ f, f ∈ Py.items files' ∧ ext f ∉ extensions') →
     ∃ before f after,
       Py.items files' = before ++ f :: after
       ∧ (∀ f', f' ∈ before → ext f' ∈ extensions')
       ∧ (ext f ∉ extensions')
       ∧ __init__ extensions' name' files' globs' rglobs' zglobs' excludes'
         = inl (ValueError_not_a_file f extensions')).
Proof.
  intros Hfiles Hexts. unfold __init__.
  apply list_truthy_items in Hfiles. rewrite Hfiles. simpl.
  rewrite bool_decide_eq_false_2 by done. simpl.
  set (self0 := Build_Sources _ _ _ _ _ _ _ _).
  destruct (check_files_spec self0 (Py.items files'))
    as [[Hok Hall]|(before & f & after & Heq & Hbefore & Hf & Herr)].
  - rewrite Hok. split; [by intros self _|].
    intros (f & Hin & Hf). destruct Hf. by apply Hall.
  - rewrite Herr. split; [by intros self|].
    intros _. by exists before, f, after.
Qed.

(** One unfolding of [iter_paths]. *)
Lemma iter_paths_unfold self (base_path : option string) :
  iter_paths fileset self base_path =
    let base_path :=
      match address self with
      | Some a => Some (spec_path a)
      | None => base_path
      end in
    if negb (Py.str_truthy base_path) then inl ValueError_base_path
    else
      let base_path := default "" base_path in
      match excludes self with
      | Some excludes' =>
          match iter_paths fileset excludes' (Some base_path) with
          | inl e => inl e
          | inr paths =>
              inr (filter_paths fileset self base_path (list_to_set paths))
          end
      | None => inr (filter_paths fileset self base_path ∅)
      end.
Proof. by destruct self. Qed.

Lemma filter_paths_set_address self a base_path excluded_files :
  filter_paths fileset (set_address a self) base_path excluded_files =
  filter_paths fileset self base_path excluded_files.
Proof. by destruct self. Qed.

(** Without an address the argument is the base path. *)
Lemma iter_paths_no_address self (base_path : option string) :
  address self = None →
  iter_paths fileset self base_path =
    if negb (Py.str_truthy base_path) then inl ValueError_base_path
    else
      match excludes self with
      | Some excludes' =>
          match iter_paths fileset excludes' (Some (default "" base_path)) with
          | inl e => inl e
          | inr paths =>
              inr (filter_paths fileset self (default "" base_path)
                                (list_to_set paths))
          end
      | None => inr (filter_paths fileset self (default "" base_path) ∅)
      end.
Proof. intros Ha. rewrite iter_paths_unfold. by rewrite Ha. Qed.

(** With no declared extension, no candidate gets through
    [_accept_file], so nothing is ever yielded. *)
Lemma filter_paths_no_extensions self base_path excluded_files :
  extensions self = ∅ →
  filter_paths fileset self base_path excluded_files = [].
Proof.
  intros Hext. unfold filter_paths.
  induction (concat (file_sources fileset self base_path)) as [|p l IH];
    [done|].
  simpl. rewrite IH. unfold _accept_file. rewrite Hext.
  by rewrite bool_decide_eq_false_2 by apply not_elem_of_empty.
Qed.

Lemma iter_paths_no_extensions self (base_path : option string) paths :
  extensions self = ∅ →
  iter_paths fileset self base_path = inr paths →
  paths = [].
Proof.
  intros Hext. rewrite iter_paths_unfold. simpl.
  destruct (negb _); [done|].
  destruct (excludes self) as [excludes'|].
  - destruct (iter_paths fileset excludes' _); [done|].
    intros [= <-]. by apply filter_paths_no_extensions.
  - intros [= <-]. by apply filter_paths_no_extensions.
Qed.

End SourcesProperties.

Section SourcesChecks.

Import Sources SourcesExamples.

Lemma init_checks_extensions_witness :
  (∀ self,
      __init__ {[ ".py" ]} None (Some ["a.py"; "a.txt"]) None None None None
        = inr self →
      ∀ f, f ∈ ["a.py"; "a.txt"] → (PosixPath.splitext f).2 ∈ ({[ ".py" ]} : gset string))
  ∧ ((∃ f, f ∈ ["a.py"; "a.txt"]
           ∧ (PosixPath.splitext f).2 ∉ ({[ ".py" ]} : gset string)) →
     ∃ before f after,
       ["a.py"; "a.txt"] = before ++ f :: after
       ∧ (∀ f', f' ∈ before → (PosixPath.splitext f').2 ∈ ({[ ".py" ]} : gset string))
       ∧ ((PosixPath.splitext f).2 ∉ ({[ ".py" ]} : gset string))
       ∧ __init__ {[ ".py" ]} None (Some ["a.py"; "a.txt"]) None None None None
         = inl (ValueError_not_a_file f {[ ".py" ]})).
Proof.
  apply (init_checks_extensions {[ ".py" ]} None (Some ["a.py"; "a.txt"])
           None None None None).
  - simpl. discriminate.
  - apply non_empty_singleton_L.
Defined.

(** The example of the specification: a [.txt] file among the files of
    sources that accept [.py] only. *)
Lemma init_rejects_other_extension :
  __init__ {[ ".py" ]} None (Some ["a.txt"]) None None None None
  = inl (ValueError_not_a_file "a.txt" {[ ".py" ]}).
Proof. vm_compute. reflexivity. Qed.

(** The paths are below the [spec_path]; the excluded file is left out. *)
Lemma iter_paths_addressed_example :
  iter_paths no_files python_sources (Some "elsewhere")
  = inr ["src/python/y.py"].
Proof. vm_compute. reflexivity. Qed.

(** Without an address the argument decides: another base path, other
    paths; no base path, a [ValueError]. *)
Lemma iter_paths_unaddressed_example :
  iter_paths no_files (set_address None python_sources) (Some "elsewhere")
  = inr ["elsewhere/y.py"]
  ∧ iter_paths no_files (set_address None python_sources) None
    = inl ValueError_base_path.
Proof. split; vm_compute; reflexivity. Qed.

(** An address at the root of the repository has an empty [spec_path]:
    the argument is ignored all the same, and the call raises. *)
Lemma iter_paths_root_address_example :
  iter_paths no_files
    (set_address (Some {| spec_path := ""; target_name := "lib" |})
                 python_sources)
    (Some "src")
  = inl ValueError_base_path.
Proof. vm_compute. reflexivity. Qed.

(** C2 fails on the code.  These sources declare no extension, their
    files and glob enumerate four candidates, none of them is excluded,
    and [iter_paths] yields nothing: [_accept_file] asks whether the
    extension is in the empty set. *)
Theorem iter_paths_empty_extensions_rejects_all :
  extensions any_sources = ∅
  ∧ excludes any_sources = None
  ∧ concat (file_sources some_files any_sources "src")
    = ["a.py"; "README"; "a.py"; "notes.txt"]
  ∧ iter_paths some_files any_sources (Some "src") = inr [].
Proof.
  split; [reflexivity|]. split; [reflexivity|].
  split; [reflexivity|]. vm_compute. reflexivity.
Qed.

End SourcesChecks.

(** * Properties of [GoalRunnerFactory] *)

Section FactoryProperties.

Import GoalRunnerFactory.

Context {Address T : Type}.
Variable env : Env Address T.

Implicit Types (self : Factory T) (goals specs : list string).

Local Abbreviation Returns := GoalRunner.Returns.
Local Abbreviation Raises := GoalRunner.Raises.

(** The body of the disambiguation loop. *)
Local Abbreviation disambiguate :=
  (λ goal : string,
     match resolve_spec env goal with
     | Resolved =>
         emit (Address:=Address) (T:=T) (LogWarning (ambiguous_warning goal))
     | AddressLookupError => ret tt
     | LookupRaises e => raise e
     end).

Lemma bind_returns {A B} (m : @F Address T A) (f : A → @F Address T B)
    self tr self' a :
  m self = (tr, self', Returns a) →
  (m ≫= f) self =
    let '(tr', self'', o) := f a self' in (tr ++ tr', self'', o).
Proof. intros Hm. unfold mbind, F_bind, bind. by rewrite Hm. Qed.

Lemma bind_raises {A B} (m : @F Address T A) (f : A → @F Address T B)
    self tr self' e :
  m self = (tr, self', Raises e) →
  (m ≫= f) self = (tr, self', Raises e).
Proof. intros Hm. unfold mbind, F_bind, bind. by rewrite Hm. Qed.

Lemma disambiguation_returns goals self :
  (∀ goal e, goal ∈ goals → resolve_spec env goal ≠ LookupRaises e) →
  for_each goals disambiguate self
  = (ambiguity_warnings env goals, self, Returns tt).
Proof.
  induction goals as [|goal goals IH]; intros Hok; [done|].
  assert (for_each goals disambiguate self
          = (ambiguity_warnings env goals, self, Returns tt)) as Hrest.
  { apply IH. intros g e Hg. apply Hok. by apply list_elem_of_further. }
  pose proof (Hok goal) as Hgoal.
  change (for_each (goal :: goals) disambiguate)
    with (disambiguate goal ≫= λ _, for_each goals disambiguate).
  unfold ambiguity_warnings. simpl.
  destruct (resolve_spec env goal) as [| |e] eqn:E.
  - erewrite bind_returns by reflexivity. by rewrite Hrest.
  - erewrite bind_returns by reflexivity. by rewrite Hrest.
  - destruct (Hgoal e); [apply list_elem_of_here|done].
Qed.

Lemma disambiguation_raises before goal after e self :
  (∀ g e', g ∈ before → resolve_spec env g ≠ LookupRaises e') →
  resolve_spec env goal = LookupRaises e →
  for_each (before ++ goal :: after) disambiguate self
  = (ambiguity_warnings env before, self, Raises e).
Proof.
  intros Hok Hgoal.
  induction before as [|g before IH]; simpl.
  - change (for_each (goal :: after) disambiguate)
      with (disambiguate goal ≫= λ _, for_each after disambiguate).
    erewrite bind_raises; [done|]. by rewrite Hgoal.
  - assert (for_each (before ++ goal :: after) disambiguate self
            = (ambiguity_warnings env before, self, Raises e)) as Hrest.
    { apply IH. intros g' e' Hg'. apply Hok. by apply list_elem_of_further. }
    pose proof (Hok g) as Hg.
    change (for_each (g :: before ++ goal :: after) disambiguate)
      with (disambiguate g ≫= λ _,
              for_each (before ++ goal :: after) disambiguate).
    unfold ambiguity_warnings. simpl.
    destruct (resolve_spec env g) as [| |e'] eqn:E.
    + erewrite bind_returns by reflexivity. by rewrite Hrest.
    + erewrite bind_returns by reflexivity. by rewrite Hrest.
    + destruct (Hg e'); [apply list_elem_of_here|done].
Qed.

Local Ltac run_factory :=
  unfold mbind, F_bind, bind, mret, F_ret, ret, gets, call, modify, emit,
    raise; simpl.

(** [_expand_goals] when no lookup raises anything but
    [AddressLookupError]. *)
Lemma _expand_goals_lookups_return goals self :
  (∀ goal e, goal ∈ goals → resolve_spec env goal ≠ LookupRaises e) →
  _expand_goals env goals self =
    let extended := set_goals (_goals self ++ (by_name env <$> goals)) self in
    if _help_request self then
      let tr := ambiguity_warnings env goals
                  ++ [PrintHelp; Exiter (print_help env)] in
      match exiter env (print_help env) with
      | GoalRunner.Returns _ => (tr, extended, Returns tt)
      | GoalRunner.Raises e => (tr, self, Raises e)
      end
    else (ambiguity_warnings env goals, extended, Returns tt).
Proof.
  intros Hok. unfold _expand_goals.
  erewrite bind_returns by (by apply disambiguation_returns).
  run_factory. destruct (_help_request self); simpl.
  - destruct (exiter env (print_help env)) as [[]|e]; simpl;
      by rewrite ?app_nil_r.
  - by rewrite ?app_nil_r.
Qed.

(** X1: without a help request, and when every lookup either resolves or
    raises [AddressLookupError], [_expand_goals] returns; it warns once
    for each token that resolves as a spec, in order, and for no other
    token; it appends [Goal.by_name] of every token, in order, to
    [_goals]. *)
Theorem expand_goals_swallows_lookup_errors goals self :
  _help_request self = false →
  (∀ goal e, goal ∈ goals → resolve_spec env goal ≠ LookupRaises e) →
  _expand_goals env goals self =
    (ambiguity_warnings env goals,
     set_goals (_goals self ++ (by_name env <$> goals)) self,
     Returns tt).
Proof.
  intros Hhelp Hok. rewrite (_expand_goals_lookups_return _ _ Hok).
  by rewrite Hhelp.
Qed.

(** X2: with a help request and an [exiter] that raises, as [sys.exit]
    does, [_expand_goals] prints the help after the ambiguity warnings,
    hands the help printer's result to the [exiter], and the exception
    leaves the call with [_goals] untouched. *)
Theorem expand_goals_help_exits goals self e :
  _help_request self = true →
  (∀ goal e', goal ∈ goals → resolve_spec env goal ≠ LookupRaises e') →
  exiter env (print_help env) = Raises e →
  _expand_goals env goals self =
    (ambiguity_warnings env goals ++ [PrintHelp; Exiter (print_help env)],
     self, Raises e).
Proof.
  intros Hhelp Hok Hexit. rewrite (_expand_goals_lookups_return _ _ Hok).
  by rewrite Hhelp, Hexit.
Qed.

(** X3: an exception of [resolve_spec] other than [AddressLookupError]
    is not swallowed: it leaves [_expand_goals] at the first token that
    raises it; the tokens after it are not looked up, no help is printed
    and [_goals] is untouched. *)
Theorem expand_goals_propagates_other_errors before goal after e self :
  (∀ g e', g ∈ before → resolve_spec env g ≠ LookupRaises e') →
  resolve_spec env goal = LookupRaises e →
  _expand_goals env (before ++ goal :: after) self =
    (ambiguity_warnings env before, self, Raises e).
Proof.
  intros Hok Hgoal. unfold _expand_goals.
  by erewrite bind_raises by (by apply disambiguation_raises).
Qed.

Lemma set_targets_same self : set_targets (_targets self) self = self.
Proof. by destruct self. Qed.

Lemma set_targets_twice (l1 l2 : list T) self :
  set_targets l2 (set_targets l1 self) = set_targets l2 self.
Proof. done. Qed.

(** The targets [_expand_specs] appends for a list of addresses. *)
Local Abbreviation roots_of addresses :=
  (filter (λ target, tag_filter env target = true)
          (get_target env <$> addresses)).

(** The inner loop of [_expand_specs], over the addresses of one spec. *)
Local Abbreviation inject :=
  (λ address : Address,
     emit (T:=T) (InjectAddressClosure address) ;;
     if tag_filter env (get_target env address)
     then modify (Address:=Address)
            (λ self, set_targets (_targets self ++ [get_target env address]) self)
     else ret tt).

(** The outer loop, over the specs. *)
Local Abbreviation expand fail_fast :=
  (λ spec : string,
     addresses ← call [] (parse_addresses env spec fail_fast);
     for_each addresses inject).

Lemma inject_loop (addresses : list Address) self :
  for_each addresses inject self =
    (InjectAddressClosure <$> addresses,
     set_targets (_targets self ++ roots_of addresses) self,
     Returns tt).
Proof.
  revert self. induction addresses as [|a addresses IH]; intros self.
  { simpl. by rewrite app_nil_r, set_targets_same. }
  change (for_each (a :: addresses) inject)
    with (inject a ≫= λ _, for_each addresses inject).
  destruct (tag_filter env (get_target env a)) eqn:Htag.
  - erewrite bind_returns; cycle 1.
    { run_factory. rewrite Htag. reflexivity. }
    rewrite IH. simpl. rewrite filter_cons_True by done.
    by rewrite <- app_assoc.
  - erewrite bind_returns; cycle 1.
    { run_factory. rewrite Htag. reflexivity. }
    rewrite IH. simpl. rewrite filter_cons_False; [done|].
    by rewrite Htag.
Qed.

Lemma for_each_cons {X} (x : X) (xs : list X) (body : X → @F Address T unit)
    self :
  for_each (x :: xs) body self =
    match body x self with
    | (tr, self', GoalRunner.Returns _) =>
        let '(tr', self'', o) := for_each xs body self' in
        (tr ++ tr', self'', o)
    | (tr, self', GoalRunner.Raises e) => (tr, self', Raises e)
    end.
Proof. done. Qed.

(** One round of the outer loop. *)
Lemma expand_spec fail_fast spec self :
  expand fail_fast spec self =
    match parse_addresses env spec fail_fast with
    | GoalRunner.Returns addresses =>
        (InjectAddressClosure <$> addresses,
         set_targets (_targets self ++ roots_of addresses) self,
         Returns tt)
    | GoalRunner.Raises e => ([], self, Raises e)
    end.
Proof.
  cbv beta. destruct (parse_addresses env spec fail_fast) as [addresses|e].
  - erewrite bind_returns by reflexivity. by rewrite inject_loop.
  - by erewrite bind_raises by reflexivity.
Qed.

Lemma expand_loop_returns fail_fast specs self :
  (∀ spec e, spec ∈ specs → parse_addresses env spec fail_fast ≠ Raises e) →
  for_each specs (expand fail_fast) self =
    (InjectAddressClosure <$> (specs ≫= addresses_of env fail_fast),
     set_targets
       (_targets self ++ roots_of (specs ≫= addresses_of env fail_fast)) self,
     Returns tt).
Proof.
  revert self. induction specs as [|spec specs IH]; intros self Hok.
  { simpl. by rewrite app_nil_r, set_targets_same. }
  rewrite for_each_cons, expand_spec.
  pose proof (Hok spec) as Hspec. simpl. unfold addresses_of at 1 3.
  destruct (parse_addresses env spec fail_fast) as [addresses|e].
  - rewrite IH by (intros s e Hs; apply Hok; by apply list_elem_of_further).
    simpl. rewrite !fmap_app, filter_app, set_targets_twice.
    by rewrite <- app_assoc.
  - destruct (Hspec e); [apply list_elem_of_here|done].
Qed.

Lemma expand_loop_raises fail_fast before spec after e self :
  (∀ s e', s ∈ before → parse_addresses env s fail_fast ≠ Raises e') →
  parse_addresses env spec fail_fast = Raises e →
  for_each (before ++ spec :: after) (expand fail_fast) self =
    (InjectAddressClosure <$> (before ≫= addresses_of env fail_fast),
     set_targets
       (_targets self ++ roots_of (before ≫= addresses_of env fail_fast)) self,
     Raises e).
Proof.
  revert self. induction before as [|s before IH]; intros self Hok Hspec.
  { simpl app. rewrite for_each_cons, expand_spec, Hspec.
    simpl. by rewrite app_nil_r, set_targets_same. }
  simpl app. rewrite for_each_cons, expand_spec.
  pose proof (Hok s) as Hs. simpl. unfold addresses_of at 1 3.
  destruct (parse_addresses env s fail_fast) as [addresses|e'].
  - rewrite IH; [|intros s' e' Hs'; apply Hok; by apply list_elem_of_further
                 |done].
    simpl. rewrite !fmap_app, filter_app, set_targets_twice.
    by rewrite <- app_assoc.
  - destruct (Hs e'); [apply list_elem_of_here|done].
Qed.

Lemma _expand_specs_returns specs fail_fast self :
  (∀ spec e, spec ∈ specs → parse_addresses env spec fail_fast ≠ Raises e) →
  _expand_specs env specs fail_fast self =
    (WorkunitEnter "parse"
       :: (InjectAddressClosure <$> (specs ≫= addresses_of env fail_fast))
       ++ [WorkunitExit "parse"],
     set_targets
       (_targets self ++ roots_of (specs ≫= addresses_of env fail_fast)) self,
     Returns tt).
Proof.
  intros Hok. unfold _expand_specs, with_workunit.
  by rewrite (expand_loop_returns _ _ _ Hok).
Qed.

(** X4: when the parser returns for every spec, [_expand_specs] injects
    the closure of every parsed address into the build graph, in order,
    inside the [parse] work unit, and appends to [_targets] the targets
    of those addresses that pass the tag filter, in the same order and as
    many times as their address was parsed; a target that the tag filter
    rejects is injected all the same. *)
Theorem expand_specs_appends_filtered specs fail_fast self :
  (∀ spec e, spec ∈ specs → parse_addresses env spec fail_fast ≠ Raises e) →
  _expand_specs env specs fail_fast self =
    (WorkunitEnter "parse"
       :: (InjectAddressClosure <$> (specs ≫= addresses_of env fail_fast))
       ++ [WorkunitExit "parse"],
     set_targets
       (_targets self
          ++ filter (λ target, tag_filter env target = true)
               (get_target env <$> (specs ≫= addresses_of env fail_fast)))
       self,
     Returns tt).
Proof. apply _expand_specs_returns. Qed.

(** X5: when the parser raises for a spec, the exception leaves
    [_expand_specs] after the [parse] work unit is closed; the specs
    after it are not parsed, and what the specs before it injected and
    appended to [_targets] stays. *)
Theorem expand_specs_keeps_partial before spec after fail_fast e self :
  (∀ s e', s ∈ before → parse_addresses env s fail_fast ≠ Raises e') →
  parse_addresses env spec fail_fast = Raises e →
  _expand_specs env (before ++ spec :: after) fail_fast self =
    (WorkunitEnter "parse"
       :: (InjectAddressClosure <$> (before ≫= addresses_of env fail_fast))
       ++ [WorkunitExit "parse"],
     set_targets
       (_targets self
          ++ filter (λ target, tag_filter env target = true)
               (get_target env <$> (before ≫= addresses_of env fail_fast)))
       self,
     Raises e).
Proof.
  intros Hok Hspec. unfold _expand_specs, with_workunit.
  by rewrite (expand_loop_raises _ _ _ _ _ _ Hok Hspec).
Qed.

Lemma _maybe_launch_pantsd_eq self :
  _maybe_launch_pantsd (Address:=Address) self
  = (pantsd_events self, self, Returns tt).
Proof.
  unfold _maybe_launch_pantsd, pantsd_events. run_factory.
  by destruct (enable_pantsd self).
Qed.

(** [setup] when nothing raises and no help is requested. *)
Lemma setup_returns self :
  _help_request self = false →
  (∀ goal e, goal ∈ _requested_goals self →
             resolve_spec env goal ≠ LookupRaises e) →
  (∀ spec e, spec ∈ _target_specs self →
             parse_addresses env spec (_fail_fast self) ≠ Raises e) →
  let goals := _goals self ++ (by_name env <$> _requested_goals self) in
  let addresses := _target_specs self ≫= addresses_of env (_fail_fast self) in
  let targets := _targets self ++ roots_of addresses in
  let quiet := existsb (has_quiet_task env) goals || _explain self in
  setup env self =
    (pantsd_events self
       ++ [WorkunitEnter "setup"]
       ++ ambiguity_warnings env (_requested_goals self)
       ++ [WorkunitEnter "parse"]
       ++ (InjectAddressClosure <$> addresses)
       ++ [WorkunitExit "parse"; AddScmInfo; UpdateReporting quiet;
           WorkunitExit "setup"],
     set_targets targets (set_goals goals self),
     Returns
       ({| target_roots := targets;
           requested_goals := _requested_goals self |},
        {| GoalRunner.pants_workdir := pants_workdir self;
           GoalRunner._goals := goals;
           GoalRunner._invalidation_report := update_reporting env quiet;
           GoalRunner._kill_nailguns := _kill_nailguns self |})).
Proof.
  intros Hhelp Hgoals Hspecs goals addresses targets quiet.
  pose proof (expand_goals_returns_eq := _expand_goals_lookups_return
                                           _ self Hgoals).
  rewrite Hhelp in expand_goals_returns_eq. simpl in expand_goals_returns_eq.
  pose proof (_expand_specs_returns (_target_specs self) (_fail_fast self)
                (set_goals goals self) Hspecs) as Hexpand_specs.
  unfold setup, _setup_context.
  erewrite bind_returns; cycle 1.
  { erewrite bind_returns by apply _maybe_launch_pantsd_eq.
    unfold with_workunit.
    erewrite (bind_returns (gets _requested_goals)) by reflexivity.
    erewrite bind_returns by exact expand_goals_returns_eq.
    erewrite (bind_returns (gets _target_specs)) by reflexivity.
    erewrite (bind_returns (gets _fail_fast)) by reflexivity.
    simpl _target_specs. simpl _fail_fast.
    erewrite bind_returns by exact Hexpand_specs.
    run_factory. reflexivity. }
  run_factory. f_equal. f_equal.
  fold addresses. rewrite !app_nil_r, <- !app_assoc. simpl.
  by rewrite <- !app_assoc.
Qed.

(** X6: when no help is requested and nothing raises, [setup] launches
    pantsd first if enabled, then, inside the [setup] work unit, expands
    the goals, expands the specs, adds the SCM info and updates the
    reporting.  The runner it builds has the factory's working directory
    and [kill_nailguns] flag, the goals the factory held followed by
    [Goal.by_name] of the requested tokens, and the invalidation report
    of [update_reporting]; the quiet flag passed to [update_reporting] is
    computed from the goals after expansion.  The context gets the
    targets after expansion. *)
Theorem setup_builds_runner self :
  _help_request self = false →
  (∀ goal e, goal ∈ _requested_goals self →
             resolve_spec env goal ≠ LookupRaises e) →
  (∀ spec e, spec ∈ _target_specs self →
             parse_addresses env spec (_fail_fast self) ≠ Raises e) →
  let goals := _goals self ++ (by_name env <$> _requested_goals self) in
  let addresses := _target_specs self ≫= addresses_of env (_fail_fast self) in
  let targets :=
    _targets self
      ++ filter (λ target, tag_filter env target = true)
           (get_target env <$> addresses) in
  let quiet := existsb (has_quiet_task env) goals || _explain self in
  setup env self =
    (pantsd_events self
       ++ [WorkunitEnter "setup"]
       ++ ambiguity_warnings env (_requested_goals self)
       ++ [WorkunitEnter "parse"]
       ++ (InjectAddressClosure <$> addresses)
       ++ [WorkunitExit "parse"; AddScmInfo; UpdateReporting quiet;
           WorkunitExit "setup"],
     set_targets targets (set_goals goals self),
     Returns
       ({| target_roots := targets;
           requested_goals := _requested_goals self |},
        {| GoalRunner.pants_workdir := pants_workdir self;
           GoalRunner._goals := goals;
           GoalRunner._invalidation_report := update_reporting env quiet;
           GoalRunner._kill_nailguns := _kill_nailguns self |})).
Proof. apply setup_returns. Qed.

(** X7: with a help request and an [exiter] that raises, [setup] ends
    with that exception after the help was printed: no spec is parsed,
    nothing is injected into the build graph, neither the SCM info nor the
    reporting is touched, and the factory is left as it was.  Pantsd, if
    enabled, was launched before, and the ambiguity warnings were logged. *)
Theorem setup_help_bypasses_graph self e :
  _help_request self = true →
  (∀ goal e', goal ∈ _requested_goals self →
              resolve_spec env goal ≠ LookupRaises e') →
  exiter env (print_help env) = Raises e →
  setup env self =
    (pantsd_events self
       ++ [WorkunitEnter "setup"]
       ++ ambiguity_warnings env (_requested_goals self)
       ++ [PrintHelp; Exiter (print_help env); WorkunitExit "setup"],
     self, Raises e).
Proof.
  intros Hhelp Hgoals Hexit.
  pose proof (_expand_goals_lookups_return _ self Hgoals) as Hexpand.
  rewrite Hhelp, Hexit in Hexpand. simpl in Hexpand.
  unfold setup, _setup_context.
  erewrite bind_raises; [done|].
  erewrite bind_returns by apply _maybe_launch_pantsd_eq.
  unfold with_workunit.
  erewrite (bind_returns (gets _requested_goals)) by reflexivity.
  erewrite bind_raises by exact Hexpand.
  simpl. by rewrite <- !app_assoc.
Qed.


End FactoryProperties.

Section FactoryChecks.

Import GoalRunnerFactory FactoryExamples.

Local Ltac lookups_return :=
  let g := fresh in let e := fresh in let H := fresh in
  intros g e H;
  repeat (apply elem_of_cons in H as [-> | H]; [discriminate|]);
  by apply elem_of_nil in H.

Lemma expand_goals_swallows_lookup_errors_witness :
  _expand_goals env ["compile"; "src"; "test"] factory =
    ([LogWarning (ambiguous_warning "src")],
     set_goals (by_name env <$> ["compile"; "src"; "test"]) factory,
     GoalRunner.Returns tt).
Proof.
  apply (expand_goals_swallows_lookup_errors env
           ["compile"; "src"; "test"] factory); [reflexivity|].
  lookups_return.
Defined.

Lemma expand_goals_help_exits_witness :
  _expand_goals env ["compile"; "src"] help_factory =
    ([LogWarning (ambiguous_warning "src"); PrintHelp; Exiter 0],
     help_factory, GoalRunner.Raises (GoalRunner.SystemExit 0)).
Proof.
  apply (expand_goals_help_exits env ["compile"; "src"] help_factory
           (GoalRunner.SystemExit 0)); [reflexivity| |reflexivity].
  lookups_return.
Defined.

Lemma expand_goals_propagates_other_errors_witness :
  _expand_goals env (["src"; "compile"] ++ "boom" :: ["src"]) help_factory =
    ([LogWarning (ambiguous_warning "src")], help_factory,
     GoalRunner.Raises (GoalRunner.Exception "I/O error")).
Proof.
  apply (expand_goals_propagates_other_errors env ["src"; "compile"] "boom"
           ["src"] (GoalRunner.Exception "I/O error") help_factory);
    [|reflexivity].
  lookups_return.
Defined.

Lemma expand_specs_appends_filtered_witness :
  _expand_specs env ["a::"; "a:x"] false factory =
    ([WorkunitEnter "parse"; InjectAddressClosure "a:x";
      InjectAddressClosure "a:y"; InjectAddressClosure "a:x";
      WorkunitExit "parse"],
     set_targets ["a:x"; "a:x"] factory,
     GoalRunner.Returns tt).
Proof.
  apply (expand_specs_appends_filtered env ["a::"; "a:x"] false factory).
  lookups_return.
Defined.

Lemma expand_specs_keeps_partial_witness :
  _expand_specs env (["a::"] ++ "bad" :: ["a:x"]) true factory =
    ([WorkunitEnter "parse"; InjectAddressClosure "a:x";
      InjectAddressClosure "a:y"; WorkunitExit "parse"],
     set_targets ["a:x"] factory,
     GoalRunner.Raises (GoalRunner.Exception "BadSpecError")).
Proof.
  apply (expand_specs_keeps_partial env ["a::"] "bad" ["a:x"] true
           (GoalRunner.Exception "BadSpecError") factory); [|reflexivity].
  lookups_return.
Defined.

Lemma setup_builds_runner_witness :
  setup env factory =
    ([WorkunitEnter "setup"; LogWarning (ambiguous_warning "src");
      WorkunitEnter "parse"; InjectAddressClosure "a:x";
      InjectAddressClosure "a:y"; InjectAddressClosure "a:x";
      WorkunitExit "parse"; AddScmInfo; UpdateReporting false;
      WorkunitExit "setup"],
     set_targets ["a:x"; "a:x"]
       (set_goals (by_name env <$> ["compile"; "src"]) factory),
     GoalRunner.Returns
       ({| target_roots := ["a:x"; "a:x"];
           requested_goals := ["compile"; "src"] |},
        {| GoalRunner.pants_workdir := "/repo/.pants.d";
           GoalRunner._goals := by_name env <$> ["compile"; "src"];
           GoalRunner._invalidation_report := Some (GoalRunner.Returns tt);
           GoalRunner._kill_nailguns := true |})).
Proof.
  apply (setup_builds_runner env factory); [reflexivity| |]; lookups_return.
Defined.

Lemma setup_help_bypasses_graph_witness :
  setup env help_factory =
    ([WorkunitEnter "pantsd"; LaunchPantsd; WorkunitExit "pantsd";
      WorkunitEnter "setup"; LogWarning (ambiguous_warning "src");
      PrintHelp; Exiter 0; WorkunitExit "setup"],
     help_factory, GoalRunner.Raises (GoalRunner.SystemExit 0)).
Proof.
  apply (setup_help_bypasses_graph env help_factory (GoalRunner.SystemExit 0));
    [reflexivity| |reflexivity].
  lookups_return.
Defined.


(** What the runner built for [compile src] logs. *)
Lemma setup_then_execute_example :
  ∃ tr self' context runner,
    setup env factory = (tr, self', GoalRunner.Returns (context, runner))
    ∧ GoalRunner._execute_engine GoalRunnerExamples.succeeding runner
      = ([GoalRunner.LogError (String.append "Unknown goal(s): src"
                                             (String "010" ""))],
         GoalRunner.Returns 1).
Proof. do 4 eexists. split; vm_compute; reflexivity. Qed.

End FactoryChecks.

(** * More properties of [GoalRunner] *)

Section RunProperties.

Import GoalRunner.

Variable execute : list Goal → outcome Z.

Implicit Types (self : GoalRunner).

(** The shapes the trace and outcome of [_execute_engine] can take. *)
Lemma _execute_engine_cases self :
  (∃ msg, _execute_engine execute self = ([LogError msg], Returns 1)
          ∧ (Py.endswith (pants_workdir self) ".pants.d" = false
             ∨ unknown_goals self ≠ []))
  ∨ (Py.endswith (pants_workdir self) ".pants.d" = true
     ∧ unknown_goals self = []
     ∧ ∃ o, (_execute_engine execute self = ([EngineExecute], o)
             ∨ _execute_engine execute self
               = ([EngineExecute; InvalidationReport], o))).
Proof.
  destruct (Py.endswith (pants_workdir self) ".pants.d") eqn:Hwd.
  2: { left. eexists. split; [by apply _execute_engine_bad_workdir|by left]. }
  destruct (decide (unknown_goals self = [])) as [Hnil|Hne].
  2: { left. eexists.
       split; [by apply _execute_engine_unknown_goals|by right]. }
  right. split; [done|]. split; [done|].
  rewrite (_execute_engine_invokes execute self Hwd Hnil).
  destruct (execute (_goals self)) as [result|e]; [|eauto].
  destruct (_invalidation_report self) as [[[]|e']|]; eauto.
Qed.

(** [_execute_engine] neither records an outcome nor kills nailguns. *)
Lemma _execute_engine_events self ev :
  ev ∈ (_execute_engine execute self).1 →
  ev = EngineExecute ∨ ev = InvalidationReport ∨ ∃ msg, ev = LogError msg.
Proof.
  destruct (_execute_engine_cases self)
    as [(msg & -> & _)|(_ & _ & o & [-> | ->])]; simpl.
  - intros ->%list_elem_of_singleton. eauto.
  - intros ->%list_elem_of_singleton. eauto.
  - intros [-> | ->%list_elem_of_singleton]%elem_of_cons; eauto.
Qed.

(** What [run] appends to the trace of [_execute_engine]. *)
Lemma run_appends self :
  ∃ record kill,
    run execute self =
      ((_execute_engine execute self).1 ++ record ++ kill,
       (_execute_engine execute self).2)
    ∧ (record = [] ∨ record = [SetRootOutcome FAILURE])
    ∧ (record = [SetRootOutcome FAILURE] ↔
         match (_execute_engine execute self).2 with
         | Returns result => result ≠ 0
         | Raises (SystemExit _) => False
         | Raises _ => True
         end)
    ∧ (kill = [] ∨ kill = [NailgunKillall])
    ∧ (kill = [NailgunKillall] ↔
         _kill_nailguns self = true
         ∨ (_execute_engine execute self).2 = Raises KeyboardInterrupt).
Proof.
  unfold run, finally_kill.
  destruct (_execute_engine execute self) as [tr [result|[|msg|code]]]; simpl.
  - exists (if bool_decide (result ≠ 0) then [SetRootOutcome FAILURE] else []),
           (if _kill_nailguns self then [NailgunKillall] else []).
    split; [by rewrite app_assoc|].
    case_bool_decide; destruct (_kill_nailguns self); naive_solver.
  - exists [SetRootOutcome FAILURE], [NailgunKillall].
    split; [by rewrite app_assoc|]. naive_solver.
  - exists [SetRootOutcome FAILURE],
           (if _kill_nailguns self then [NailgunKillall] else []).
    split; [by rewrite app_assoc|].
    destruct (_kill_nailguns self); naive_solver.
  - exists [], (if _kill_nailguns self then [NailgunKillall] else []).
    split; [done|]. destruct (_kill_nailguns self); naive_solver.
Qed.

Lemma filter_none {X} (P : X → Prop) `{!∀ x, Decision (P x)} (l : list X) :
  (∀ x, x ∈ l → ¬ P x) → filter P l = [].
Proof.
  induction l as [|x l IH]; intros Hnone; [done|].
  rewrite filter_cons_False by (apply Hnone, list_elem_of_here).
  apply IH. intros y Hy. apply Hnone. by apply list_elem_of_further.
Qed.

(** X9: [run] passes on what [_execute_engine] did: it returns the same
    result code or lets the same exception through, and its calls start
    with the calls of [_execute_engine]. *)
Theorem run_preserves_outcome self :
  (run execute self).2 = (_execute_engine execute self).2
  ∧ (_execute_engine execute self).1 `prefix_of` (run execute self).1.
Proof.
  destruct (run_appends self) as (record & kill & -> & _). simpl.
  split; [done|]. by exists (record ++ kill).
Qed.

(** X10: [run] kills the nailguns exactly when [_kill_nailguns] is set or
    a [KeyboardInterrupt] left the engine step; when it does, that is the
    last thing it does, and it does so once. *)
Theorem run_kills_nailguns_last self :
  (NailgunKillall ∈ (run execute self).1 ↔
     _kill_nailguns self = true
     ∨ (_execute_engine execute self).2 = Raises KeyboardInterrupt)
  ∧ ∀ before after,
      (run execute self).1 = before ++ NailgunKillall :: after →
      after = [] ∧ NailgunKillall ∉ before.
Proof.
  destruct (run_appends self)
    as (record & kill & -> & Hrecord & _ & Hkill & Hiff). simpl.
  assert (NailgunKillall ∉ (_execute_engine execute self).1 ++ record)
    as Hnot.
  { intros [Hin|Hin]%elem_of_app.
    - apply _execute_engine_events in Hin. naive_solver.
    - destruct Hrecord as [-> | ->]; [by apply elem_of_nil in Hin|].
      by apply list_elem_of_singleton in Hin. }
  split.
  - rewrite <- Hiff. split.
    + rewrite app_assoc. intros [Hin|Hin]%elem_of_app; [done|].
      destruct Hkill as [-> | ->]; [by apply elem_of_nil in Hin|done].
    + intros ->. rewrite app_assoc. apply elem_of_app. right.
      apply list_elem_of_here.
  - intros before after. rewrite app_assoc.
    destruct Hkill as [-> | ->].
    + rewrite app_nil_r. intros Heq. destruct Hnot. rewrite Heq.
      apply elem_of_app. right. apply list_elem_of_here.
    + intros Heq.
      destruct after as [|ev after _] using rev_ind.
      * apply app_inj_tail in Heq as [<- _]. done.
      * rewrite app_comm_cons, app_assoc in Heq.
        apply app_inj_tail in Heq as [Heq _]. destruct Hnot. rewrite Heq.
        apply elem_of_app. right. apply list_elem_of_here.
Qed.

(** X11: [run] sets the root outcome to [FAILURE] and to nothing else; it
    does so once when the engine step returned a code other than 0 or
    ended with a [KeyboardInterrupt] or an [Exception], and not at all
    when the step returned 0 or ended with another [BaseException]. *)
Theorem run_records_failure_once self :
  (∀ o, SetRootOutcome o ∈ (run execute self).1 → o = FAILURE)
  ∧ length (filter (λ ev, ev = SetRootOutcome FAILURE) (run execute self).1)
    = match (_execute_engine execute self).2 with
      | Returns result => if bool_decide (result ≠ 0) then 1%nat else 0%nat
      | Raises (SystemExit _) => 0%nat
      | Raises _ => 1%nat
      end.
Proof.
  destruct (run_appends self)
    as (record & kill & -> & Hrecord & Hiff & Hkill & _). simpl.
  assert (filter (λ ev, ev = SetRootOutcome FAILURE)
                 (_execute_engine execute self).1 = []) as Hnone.
  { apply filter_none. intros ev Hev ->.
    apply _execute_engine_events in Hev. naive_solver. }
  assert (filter (λ ev, ev = SetRootOutcome FAILURE) kill = []) as Hkillnone.
  { by destruct Hkill as [-> | ->]. }
  split.
  - intros o [Hin|[Hin|Hin]%elem_of_app]%elem_of_app.
    + apply _execute_engine_events in Hin. naive_solver.
    + destruct Hrecord as [-> | ->]; [by apply elem_of_nil in Hin|].
      apply list_elem_of_singleton in Hin. congruence.
    + destruct Hkill as [-> | ->]; [by apply elem_of_nil in Hin|].
      by apply list_elem_of_singleton in Hin.
  - rewrite !filter_app, Hnone, Hkillnone, app_nil_r. simpl.
    destruct Hrecord as [-> | ->].
    + destruct ((_execute_engine execute self).2) as [result|[|msg|code]];
        try case_bool_decide; naive_solver.
    + destruct ((_execute_engine execute self).2) as [result|[|msg|code]];
        try case_bool_decide; naive_solver.
Qed.

(** X12: the engine is invoked exactly when the working directory ends
    in [.pants.d] and every requested goal has ordered task names; it is
    then the first call of [_execute_engine], and it is invoked once. *)
Theorem engine_invoked_iff_preconditions self :
  (EngineExecute ∈ (_execute_engine execute self).1 ↔
     Py.endswith (pants_workdir self) ".pants.d" = true
     ∧ unknown_goals self = [])
  ∧ (EngineExecute ∈ (_execute_engine execute self).1 →
     ∃ rest, (_execute_engine execute self).1 = EngineExecute :: rest
             ∧ EngineExecute ∉ rest).
Proof.
  destruct (_execute_engine_cases self)
    as [(msg & -> & Hpre)|(Hwd & Hnil & o & [-> | ->])]; simpl.
  - split.
    + split; [by intros ?%list_elem_of_singleton|].
      intros [Hwd Hnil]. destruct Hpre; congruence.
    + by intros ?%list_elem_of_singleton.
  - split; [split; [done|intros _; apply list_elem_of_here]|].
    intros _. exists []. split; [done|apply not_elem_of_nil].
  - split; [split; [done|intros _; apply list_elem_of_here]|].
    intros _. exists [InvalidationReport]. split; [done|].
    by intros ?%list_elem_of_singleton.
Qed.

(** X13: an [Exception] raised by [report()] of the invalidation report
    replaces the result of the engine: [run] marks the run as failed and
    lets the exception through, also when the engine returned 0, and
    kills the nailguns only if [_kill_nailguns] is set. *)
Theorem report_exception_fails_run self result msg :
  Py.endswith (pants_workdir self) ".pants.d" = true →
  unknown_goals self = [] →
  execute (_goals self) = Returns result →
  _invalidation_report self = Some (Raises (Exception msg)) →
  run execute self =
    ([EngineExecute; InvalidationReport; SetRootOutcome FAILURE]
       ++ finally_kill (_kill_nailguns self),
     Raises (Exception msg)).
Proof.
  intros Hwd Hnil Hexec Hreport. unfold run.
  rewrite (_execute_engine_invokes execute self Hwd Hnil), Hexec, Hreport.
  done.
Qed.

End RunProperties.

(** * Laws of [Variants.merge] *)

Section VariantsLaws.

Import Variants.

Implicit Types (left right : option (list (string * string))).
Implicit Types (m : gmap string string) (k v : string).
Implicit Types (pairs : list (string * string)).

(** The update loop is the union of maps, the later side winning. *)
Lemma update_union m pairs : update m pairs = dict pairs ∪ m.
Proof.
  unfold dict. fold (update ∅ pairs). revert m.
  induction pairs as [|[k v] pairs IH]; intros m.
  { simpl. by rewrite (left_id_L ∅ (∪)). }
  change (update m ((k, v) :: pairs)) with (update (<[k:=v]> m) pairs).
  change (update ∅ ((k, v) :: pairs)) with (update (<[k:=v]> ∅) pairs).
  rewrite (IH (<[k:=v]> m)), (IH (<[k:=v]> ∅)).
  rewrite <- (assoc_L (∪)). f_equal.
  by rewrite insert_empty, <- insert_union_singleton_l.
Qed.

Lemma dict_cons_nonempty (p : string * string) pairs : dict (p :: pairs) ≠ ∅.
Proof.
  unfold dict. fold (update ∅ (p :: pairs)).
  change (update ∅ (p :: pairs)) with (update (<[p.1:=p.2]> ∅) pairs).
  rewrite update_union. intros Hempty.
  apply (f_equal (λ m, m !! p.1)) in Hempty.
  rewrite lookup_empty in Hempty.
  apply lookup_union_None in Hempty as [_ Hempty].
  by rewrite lookup_insert_eq in Hempty.
Qed.

(** Sorting the items of a dictionary and reading them back gives the
    dictionary. *)
Lemma dict_sorted_by_key m : dict (sorted_by_key (map_to_list m)) = m.
Proof.
  destruct (sorted_by_key_items m) as (_ & Hnd & Hmem).
  apply map_eq. intros k. apply option_eq. intros v.
  by rewrite (dict_lookup _ _ _ Hnd), Hmem.
Qed.

Lemma sorted_by_key_nonempty m : m ≠ ∅ → sorted_by_key (map_to_list m) ≠ [].
Proof.
  intros Hm Hnil. apply Hm, map_to_list_empty_iff.
  apply Permutation_nil_r. rewrite <- Hnil. unfold sorted_by_key.
  symmetry. apply merge_sort_Permutation.
Qed.

(** The four cases of [merge], by the truth values of the two sides. *)
Lemma merge_by_truth (left right : option iterable) :
  merge left right =
    match truthy left, truthy right with
    | false, false => None
    | false, true => Some (pairs_of right)
    | true, false => Some (pairs_of left)
    | true, true =>
        Some (sorted_by_key
                (map_to_list (dict (pairs_of right) ∪ dict (pairs_of left))))
    end.
Proof.
  unfold merge. destruct (truthy left), (truthy right); try done.
  cbn [negb]. by rewrite update_union.
Qed.

Lemma dict_nil_iff pairs : dict pairs = ∅ ↔ pairs = [].
Proof.
  split; [|by intros ->].
  destruct pairs as [|p pairs]; [done|]. intros Hempty.
  by apply dict_cons_nonempty in Hempty.
Qed.

Lemma union_empty_iff m1 m2 : m1 ∪ m2 = ∅ ↔ m1 = ∅ ∧ m2 = ∅.
Proof.
  split; [|intros [-> ->]; by rewrite (left_id_L ∅ (∪))].
  intros Hempty. split; apply map_eq; intros k; rewrite lookup_empty;
    apply (f_equal (λ m, m !! k)) in Hempty; rewrite lookup_empty in Hempty;
    by apply lookup_union_None in Hempty as [? ?].
Qed.

Lemma sorted_by_key_nil_iff m : sorted_by_key (map_to_list m) = [] ↔ m = ∅.
Proof.
  split.
  - intros Hnil. destruct (decide (m = ∅)) as [|Hne]; [done|].
    by apply sorted_by_key_nonempty in Hne.
  - intros ->. by rewrite map_to_list_empty.
Qed.

(** The four cases of [merge] on sequences, by the items of the two
    sides. *)
Lemma merge_cases left right :
  merge (sequence left) (sequence right) =
    match Py.items left, Py.items right with
    | [], [] => None
    | [], _ :: _ => Some (Py.items right)
    | _ :: _, [] => Some (Py.items left)
    | _ :: _, _ :: _ =>
        Some (sorted_by_key
                (map_to_list (dict (Py.items right) ∪ dict (Py.items left))))
    end.
Proof.
  rewrite merge_by_truth.
  by destruct left as [[|p l]|], right as [[|q r]|].
Qed.

(** The items of a merge of sequences: on two non-empty sides they are
    those of the union of the dictionaries. *)
Lemma merge_items left right :
  Py.items (merge (sequence left) (sequence right)) =
    match Py.items left, Py.items right with
    | [], _ => Py.items right
    | _ :: _, [] => Py.items left
    | _ :: _, _ :: _ =>
        sorted_by_key
          (map_to_list (dict (Py.items right) ∪ dict (Py.items left)))
    end.
Proof.
  rewrite merge_cases.
  by destruct (Py.items left) as [|p l], (Py.items right) as [|q r].
Qed.

Lemma merge_items_nil left right :
  Py.items (merge (sequence left) (sequence right)) = [] ↔
  Py.items left = [] ∧ Py.items right = [].
Proof.
  rewrite merge_items.
  destruct (Py.items left) as [|p l] eqn:El,
           (Py.items right) as [|q r] eqn:Er; try naive_solver.
  rewrite sorted_by_key_nil_iff, union_empty_iff, !dict_nil_iff.
  naive_solver.
Qed.

(** X14: [merge] returns the empty tuple exactly when neither side holds
    a pair and one side is truthy all the same, which only an empty
    iterator is.  On sides that are absent or sequences it never returns
    the empty tuple: an empty result is [None]. *)
Theorem merge_empty_tuple_iff (x y : option iterable) :
  (merge x y = Some [] ↔
     pairs_of x = [] ∧ pairs_of y = []
     ∧ (x = Some (Iterator []) ∨ y = Some (Iterator [])))
  ∧ ∀ left right, merge (sequence left) (sequence right) ≠ Some [].
Proof.
  split.
  - rewrite merge_by_truth.
    destruct x as [[[|p l]|[|p l]]|], y as [[[|q r]|[|q r]]|];
      cbn [truthy Py.list_truthy pairs_of];
      rewrite ?sorted_by_key_nil_iff, ?union_empty_iff, ?dict_nil_iff;
      try naive_solver.
    all: split; [|naive_solver]; intros [= Hnil];
      apply sorted_by_key_nil_iff, union_empty_iff in Hnil as [H1 H2];
      apply dict_nil_iff in H1; apply dict_nil_iff in H2; naive_solver.
  - intros left right Hsome.
    assert (Py.items (merge (sequence left) (sequence right)) = [])
      as Hnil by by rewrite Hsome.
    apply merge_items_nil in Hnil as [Hl Hr].
    rewrite merge_cases, Hl, Hr in Hsome. done.
Qed.

(** X15: [merge] is associative: merging [c] over the merge of [b] over
    [a] gives what merging the merge of [c] over [b] over [a] gives. *)
Theorem merge_assoc (a b c : option (list (string * string))) :
  merge (sequence (merge (sequence a) (sequence b))) (sequence c)
  = merge (sequence a) (sequence (merge (sequence b) (sequence c))).
Proof.
  rewrite (merge_cases (merge (sequence a) (sequence b)) c),
          (merge_cases a (merge (sequence b) (sequence c))).
  pose proof (merge_items_nil a b) as Hab.
  pose proof (merge_items_nil b c) as Hbc.
  rewrite !merge_items in *.
  destruct (Py.items a) as [|pa A] eqn:Ea, (Py.items b) as [|pb B] eqn:Eb,
           (Py.items c) as [|pc C] eqn:Ec; try done.
  - (* only [a] is empty *)
    destruct (sorted_by_key _) eqn:E; [|done].
    destruct (proj1 Hbc eq_refl); done.
  - (* only [c] is empty *)
    destruct (sorted_by_key _) eqn:E; [|done].
    destruct (proj1 Hab eq_refl); done.
  - (* no side is empty *)
    destruct (sorted_by_key (map_to_list (dict (pb :: B) ∪ dict (pa :: A))))
      as [|x ab] eqn:Eab; [destruct (proj1 Hab eq_refl); done|].
    destruct (sorted_by_key (map_to_list (dict (pc :: C) ∪ dict (pb :: B))))
      as [|y bc] eqn:Ebc; [destruct (proj1 Hbc eq_refl); done|].
    rewrite <- Eab, <- Ebc, !dict_sorted_by_key.
    by rewrite (assoc_L (∪)).
Qed.

Lemma strictly_sorted_keys pairs :
  StronglySorted key_lt pairs → NoDup pairs.*1.
Proof.
  induction 1 as [|x pairs Hs IH Hall]; [constructor|].
  simpl. apply NoDup_cons. split; [|done].
  intros (y & Heq & Hy)%list_elem_of_fmap.
  rewrite Forall_forall in Hall. specialize (Hall y Hy).
  unfold key_lt in Hall. rewrite Heq, compare_refl_eq in Hall. done.
Qed.

(** A strictly sorted tuple is the sorted list of the items of its own
    dictionary. *)
Lemma sorted_by_key_dict pairs :
  StronglySorted key_lt pairs →
  sorted_by_key (map_to_list (dict pairs)) = pairs.
Proof.
  intros Hs. pose proof (strictly_sorted_keys _ Hs) as Hnd.
  destruct (sorted_by_key_items (dict pairs)) as (Hs' & Hnd' & Hmem).
  apply (StronglySorted_unique_strong key_lt); [|done..|].
  { intros x1 x2 _ _ H1 H2. unfold key_lt in *.
    pose proof (transitivity (R:=String_as_OT.lt) H1 H2) as Hlt.
    unfold String_as_OT.lt in Hlt. by rewrite compare_refl_eq in Hlt. }
  apply NoDup_Permutation.
  - by apply NoDup_fmap_1 in Hnd'.
  - by apply NoDup_fmap_1 in Hnd.
  - intros [k v]. by rewrite Hmem, (dict_lookup _ _ _ Hnd).
Qed.

(** X16: [merge] is idempotent on canonical variants: merging a
    non-empty tuple that is strictly sorted by key over itself gives the
    tuple back. *)
Theorem merge_idempotent pairs :
  pairs ≠ [] → StronglySorted key_lt pairs →
  merge (Some (Sequence pairs)) (Some (Sequence pairs)) = Some pairs.
Proof.
  intros Hne Hs.
  change (merge (sequence (Some pairs)) (sequence (Some pairs)) = Some pairs).
  rewrite merge_cases. simpl.
  destruct pairs as [|p pairs]; [done|].
  by rewrite (idemp_L (∪)), sorted_by_key_dict.
Qed.

Lemma dict_Permutation pairs pairs' :
  NoDup pairs.*1 → pairs ≡ₚ pairs' → dict pairs = dict pairs'.
Proof.
  intros Hnd Hperm.
  assert (NoDup pairs'.*1) as Hnd' by by rewrite <- Hperm.
  apply map_eq. intros k. apply option_eq. intros v.
  by rewrite (dict_lookup _ _ _ Hnd), (dict_lookup _ _ _ Hnd'), Hperm.
Qed.

(** X17: on two non-empty sides with distinct keys, the result of
    [merge] does not depend on the order in which either side lists its
    pairs. *)
Theorem merge_order_insensitive (l l' r r' : list (string * string)) :
  l ≠ [] → r ≠ [] →
  NoDup l.*1 → NoDup r.*1 →
  l ≡ₚ l' → r ≡ₚ r' →
  merge (Some (Sequence l)) (Some (Sequence r))
  = merge (Some (Sequence l')) (Some (Sequence r')).
Proof.
  intros Hl Hr Hndl Hndr Hpl Hpr.
  change (merge (sequence (Some l)) (sequence (Some r))
          = merge (sequence (Some l')) (sequence (Some r'))).
  rewrite !merge_cases. simpl.
  destruct l as [|p l]; [done|]. destruct r as [|q r]; [done|].
  destruct l' as [|p' l']; [by apply Permutation_nil_r in Hpl|].
  destruct r' as [|q' r']; [by apply Permutation_nil_r in Hpr|].
  by rewrite (dict_Permutation _ _ Hndl Hpl), (dict_Permutation _ _ Hndr Hpr).
Qed.

End VariantsLaws.

Section VariantsLawsChecks.

Import Variants.

Lemma merge_idempotent_witness :
  merge (Some (Sequence [("arch", "x86"); ("os", "linux")]))
        (Some (Sequence [("arch", "x86"); ("os", "linux")]))
  = Some [("arch", "x86"); ("os", "linux")].
Proof.
  apply (merge_idempotent [("arch", "x86"); ("os", "linux")]);
    [discriminate|].
  repeat constructor.
Defined.

Lemma merge_order_insensitive_witness :
  merge (Some (Sequence [("os", "linux"); ("arch", "x86")]))
        (Some (Sequence [("os", "mac")]))
  = merge (Some (Sequence [("arch", "x86"); ("os", "linux")]))
          (Some (Sequence [("os", "mac")])).
Proof.
  apply (merge_order_insensitive
           [("os", "linux"); ("arch", "x86")]
           [("arch", "x86"); ("os", "linux")]
           [("os", "mac")] [("os", "mac")]);
    [discriminate|discriminate|compute_done|compute_done| |done].
  apply Permutation_swap.
Defined.

End VariantsLawsChecks.

(** * More properties of [Sources] *)

Section IterPathsProperties.

Import Sources SourcesFacts.

Variable fileset : fileset_wrapper_type → string → string → list string.

Implicit Types (self : Sources) (f p : string).

Local Abbreviation ext f := (PosixPath.splitext f).2.

Lemma filter_paths_elem_of self (base : string) (excluded : gset string) p :
  p ∈ filter_paths fileset self base excluded ↔
  ∃ rel, rel ∈ concat (file_sources fileset self base)
         ∧ ext rel ∈ extensions self
         ∧ p = PosixPath.join base rel
         ∧ p ∉ excluded.
Proof.
  unfold filter_paths. rewrite list_elem_of_In, in_flat_map.
  split.
  - intros (rel & Hrel%list_elem_of_In & Hp). exists rel.
    destruct (_accept_file self rel) eqn:Hacc; [|by destruct Hp].
    apply _accept_file_spec in Hacc.
    case_bool_decide as Hex; [|by destruct Hp].
    destruct Hp as [<-|[]]. done.
  - intros (rel & Hrel & Hext & -> & Hex). exists rel.
    split; [by apply list_elem_of_In|].
    apply _accept_file_spec in Hext. rewrite Hext.
    rewrite bool_decide_eq_true_2 by done. by left.
Qed.

(** When [iter_paths] returns, it ran the final loop below the resolved
    base path with the paths of [excludes], if any, as the excluded set. *)
Lemma iter_paths_returns self (base_path : option string) paths :
  iter_paths fileset self base_path = inr paths →
  ∃ (base : string) (excluded : list string),
    resolved_base_path self base_path = Some base
    ∧ base ≠ ""
    ∧ match excludes self with
      | Some excludes' =>
          iter_paths fileset excludes' (Some base) = inr excluded
      | None => excluded = []
      end
    ∧ paths = filter_paths fileset self base (list_to_set excluded).
Proof.
  rewrite iter_paths_unfold. fold (resolved_base_path self base_path).
  cbv zeta.
  destruct (resolved_base_path self base_path) as [[|c base]|]; try done.
  simpl. destruct (excludes self) as [excludes'|].
  - destruct (iter_paths fileset excludes' _) as [e|excluded] eqn:E; [done|].
    intros [= <-]. by exists (String c base), excluded.
  - intros [= <-]. by exists (String c base), [].
Qed.

(** The candidates of [file_sources]: the listed files, then what each
    pattern that is given expands to below the base path. *)
Lemma file_sources_elem_of self (base : string) rel :
  rel ∈ concat (file_sources fileset self base) ↔
  rel ∈ Py.items (files self)
  ∨ (∃ spec, globs self = Some spec ∧ spec ≠ ""
             ∧ rel ∈ fileset Globs base spec)
  ∨ (∃ spec, rglobs self = Some spec ∧ spec ≠ ""
             ∧ rel ∈ fileset RGlobs base spec)
  ∨ (∃ spec, zglobs self = Some spec ∧ spec ≠ ""
             ∧ rel ∈ fileset ZGlobs base spec).
Proof.
  assert (∀ (spec : option string) w,
            rel ∈ concat (if Py.str_truthy spec
                          then [fileset w base (default "" spec)] else [])
            ↔ ∃ spec', spec = Some spec' ∧ spec' ≠ ""
                       ∧ rel ∈ fileset w base spec') as Hglob.
  { intros [[|c spec']|] w; simpl.
    - rewrite elem_of_nil. naive_solver.
    - rewrite app_nil_r. naive_solver.
    - rewrite elem_of_nil. naive_solver. }
  unfold file_sources. cbn [flat_map].
  rewrite !concat_app, !elem_of_app, !Hglob.
  assert (rel ∈ concat (if Py.list_truthy (files self)
                        then [Py.items (files self)] else [])
          ↔ rel ∈ Py.items (files self)) as ->.
  { destruct (files self) as [[|f l]|]; simpl; by rewrite ?app_nil_r. }
  simpl. rewrite elem_of_nil. naive_solver.
Qed.

(** C10: a [Sources] with an address works below the [spec_path] of the
    address and never reads the [base_path] argument.  The result is the
    same for every argument.  With an empty [spec_path] the call raises
    whatever is passed.  Otherwise, if [excludes] can be iterated below
    [spec_path], the call returns, and it yields exactly the candidates
    (the listed files and the expansions of the patterns below
    [spec_path]) with an accepted extension, joined to [spec_path],
    that [excludes] does not yield below [spec_path]. *)
Theorem iter_paths_address_overrides self a (base_path : option string) :
  address self = Some a →
  (∀ base_path', iter_paths fileset self base_path
                 = iter_paths fileset self base_path')
  ∧ iter_paths fileset self base_path
    = iter_paths fileset (set_address None self) (Some (spec_path a))
  ∧ (spec_path a = "" →
     iter_paths fileset self base_path = inl ValueError_base_path)
  ∧ (spec_path a ≠ "" →
     (∀ excludes', excludes self = Some excludes' →
        ∃ excluded,
          iter_paths fileset excludes' (Some (spec_path a)) = inr excluded) →
     ∃ paths, iter_paths fileset self base_path = inr paths)
  ∧ ∀ paths, iter_paths fileset self base_path = inr paths →
      ∀ p, p ∈ paths ↔
        ∃ rel,
          (rel ∈ Py.items (files self)
           ∨ (∃ spec, globs self = Some spec ∧ spec ≠ ""
                      ∧ rel ∈ fileset Globs (spec_path a) spec)
           ∨ (∃ spec, rglobs self = Some spec ∧ spec ≠ ""
                      ∧ rel ∈ fileset RGlobs (spec_path a) spec)
           ∨ (∃ spec, zglobs self = Some spec ∧ spec ≠ ""
                      ∧ rel ∈ fileset ZGlobs (spec_path a) spec))
          ∧ ext rel ∈ extensions self
          ∧ p = PosixPath.join (spec_path a) rel
          ∧ ∀ excludes' excluded,
              excludes self = Some excludes' →
              iter_paths fileset excludes' (Some (spec_path a))
                = inr excluded →
              p ∉ excluded.
Proof.
  intros Ha. split; [|split; [|split; [|split]]].
  - intros base_path'. rewrite !iter_paths_unfold. by rewrite Ha.
  - rewrite !iter_paths_unfold. rewrite Ha.
    destruct self; simpl. unfold filter_paths, file_sources, _accept_file.
    reflexivity.
  - intros Hempty. rewrite iter_paths_unfold, Ha, Hempty. done.
  - intros Hne Hexcludes. rewrite iter_paths_unfold, Ha. cbv zeta.
    destruct (spec_path a) as [|c base] eqn:Hsp; [done|]. simpl.
    destruct (excludes self) as [excludes'|]; [|by eexists].
    destruct (Hexcludes excludes' eq_refl) as [excluded ->]. by eexists.
  - intros paths (base & excluded & Hbase & _ & Hex & ->)%iter_paths_returns p.
    unfold resolved_base_path in Hbase. rewrite Ha in Hbase.
    injection Hbase as <-. rewrite filter_paths_elem_of.
    split.
    + intros (rel & Hrel%file_sources_elem_of & Hext & -> & Hnot).
      exists rel. repeat split; try done.
      intros excludes' excluded' Heq Hiter. rewrite Heq, Hiter in Hex.
      injection Hex as <-. by rewrite elem_of_list_to_set in Hnot.
    + intros (rel & Hrel%file_sources_elem_of & Hext & -> & Hnot).
      exists rel. repeat split; try done.
      rewrite elem_of_list_to_set.
      destruct (excludes self) as [excludes'|]; [by eapply Hnot|].
      subst excluded. apply not_elem_of_nil.
Qed.

(** X18: every path [iter_paths] yields is a candidate of [files],
    [globs], [rglobs] or [zglobs] joined to the base path, with an
    extension in [extensions], and is not among the paths that
    [excludes] yields for the same base path; and every such path is
    yielded. *)
Theorem iter_paths_yields_iff self (base_path : option string) paths p :
  iter_paths fileset self base_path = inr paths →
  ∃ base : string,
    resolved_base_path self base_path = Some base
    ∧ (p ∈ paths ↔
       ∃ rel, rel ∈ concat (file_sources fileset self base)
              ∧ ext rel ∈ extensions self
              ∧ p = PosixPath.join base rel
              ∧ ∀ excludes' excluded,
                  excludes self = Some excludes' →
                  iter_paths fileset excludes' (Some base) = inr excluded →
                  p ∉ excluded).
Proof.
  intros (base & excluded & Hbase & _ & Hex & ->)%iter_paths_returns.
  exists base. split; [done|]. rewrite filter_paths_elem_of.
  split.
  - intros (rel & Hrel & Hext & -> & Hnot). exists rel.
    repeat split; try done.
    intros excludes' excluded' Heq Hiter. rewrite Heq, Hiter in Hex.
    injection Hex as <-. by rewrite elem_of_list_to_set in Hnot.
  - intros (rel & Hrel & Hext & -> & Hnot). exists rel.
    repeat split; try done.
    rewrite elem_of_list_to_set.
    destruct (excludes self) as [excludes'|]; [by eapply Hnot|].
    subst excluded. apply not_elem_of_nil.
Qed.

(** X19: [excludes] only removes: what [iter_paths] yields is a
    sublist of what the same object yields without its [excludes]. *)
Theorem iter_paths_excludes_only_remove self (base_path : option string)
    paths :
  iter_paths fileset self base_path = inr paths →
  ∃ all_paths,
    iter_paths fileset (set_excludes None self) base_path = inr all_paths
    ∧ paths `sublist_of` all_paths.
Proof.
  intros (base & excluded & Hbase & Hne & _ & ->)%iter_paths_returns.
  exists (filter_paths fileset self base ∅). split.
  - rewrite iter_paths_unfold.
    destruct self; simpl in *. unfold resolved_base_path in Hbase.
    simpl in Hbase. rewrite Hbase. by destruct base.
  - unfold filter_paths.
    induction (concat (file_sources fileset self base)) as [|rel l IH];
      [done|].
    simpl. apply sublist_app; [|done].
    destruct (_accept_file self rel); [|done].
    rewrite (bool_decide_eq_true_2 (_ ∉ ∅)) by apply not_elem_of_empty.
    case_bool_decide; [done|]. apply sublist_nil_l.
Qed.

Lemma nested_excludes_unfold self :
  nested_excludes self =
    match excludes self with
    | Some excludes' => excludes' :: nested_excludes excludes'
    | None => []
    end.
Proof. by destruct self. Qed.

(** When [iter_paths] raises, and what. *)
Lemma iter_paths_raises n self (base_path : option string) :
  length (nested_excludes self) = n →
  (∀ e, iter_paths fileset self base_path = inl e → e = ValueError_base_path)
  ∧ ((∃ e, iter_paths fileset self base_path = inl e) ↔
     Py.str_truthy (resolved_base_path self base_path) = false
     ∨ ∃ excludes' a,
         excludes' ∈ nested_excludes self
         ∧ address excludes' = Some a
         ∧ spec_path a = "").
Proof.
  revert self base_path. induction n as [|n IH]; intros self base_path Hlen.
  - (* no [excludes] *)
    rewrite nested_excludes_unfold in Hlen.
    destruct (excludes self) as [excludes'|] eqn:Hex; [done|].
    rewrite nested_excludes_unfold, iter_paths_unfold, Hex.
    fold (resolved_base_path self base_path). cbv zeta.
    destruct (Py.str_truthy (resolved_base_path self base_path)); simpl.
    + split; [done|]. split; [by intros [e ?]|].
      intros [?|(e' & a & Hin & _)]; [done|by apply elem_of_nil in Hin].
    + split; [by intros e [= <-]|]. split; [by left|by eexists].
  - rewrite nested_excludes_unfold in Hlen.
    destruct (excludes self) as [excludes'|] eqn:Hex; [|done].
    injection Hlen as Hlen.
    rewrite nested_excludes_unfold, iter_paths_unfold, Hex.
    fold (resolved_base_path self base_path). cbv zeta.
    destruct (resolved_base_path self base_path) as [[|c base]|] eqn:Hb;
      simpl.
    + split; [by intros e [= <-]|]. split; [by left|by eexists].
    + destruct (IH excludes' (Some (String c base)) Hlen) as [Herr Hiff].
      destruct (iter_paths fileset excludes' (Some (String c base)))
        as [e|excluded] eqn:Hiter.
      * split; [intros e' [= <-]; by apply Herr|].
        split; [|by eexists]. intros _. right.
        destruct (proj1 Hiff (ex_intro _ e eq_refl))
          as [Hfalsy|(e' & a & Hin & Ha & Hsp)].
        -- unfold resolved_base_path in Hfalsy.
           destruct (address excludes') as [a|] eqn:Ha; [|done].
           exists excludes', a. split; [apply list_elem_of_here|].
           split; [done|]. by destruct (spec_path a).
        -- exists e', a. split; [by apply list_elem_of_further|done].
      * split; [done|]. split; [by intros [e ?]|].
        intros [?|(e' & a & Hin & Ha & Hsp)]; [done|].
        assert (∃ e, @inr error _ excluded = inl e) as [e ?]; [|done].
        apply Hiff. apply elem_of_cons in Hin as [-> | Hin].
        -- left. unfold resolved_base_path. by rewrite Ha, Hsp.
        -- right. by exists e', a.
    + split; [by intros e [= <-]|]. split; [by left|by eexists].
Qed.

(** X20: the one error of [iter_paths] is the [ValueError] for a missing
    base path.  It is raised exactly when the base path of the object
    itself (the [spec_path] of its address, else the argument) is absent
    or empty, or when one of its nested [excludes] has an address whose
    [spec_path] is empty. *)
Theorem iter_paths_raises_iff self (base_path : option string) :
  (∀ e, iter_paths fileset self base_path = inl e → e = ValueError_base_path)
  ∧ ((∃ e, iter_paths fileset self base_path = inl e) ↔
     Py.str_truthy (resolved_base_path self base_path) = false
     ∨ ∃ excludes' a,
         excludes' ∈ nested_excludes self
         ∧ address excludes' = Some a
         ∧ spec_path a = "").
Proof. by eapply iter_paths_raises. Qed.

Lemma flat_map_all_accepted self (base : string) (X : gset string)
    (l : list string) :
  (∀ f, f ∈ l → _accept_file self f = true) →
  flat_map (λ rel_path,
              if _accept_file self rel_path then
                if bool_decide (PosixPath.join base rel_path ∉ X)
                then [PosixPath.join base rel_path] else []
              else []) l
  = filter (λ p, p ∉ X) (PosixPath.join base <$> l).
Proof.
  induction l as [|f l IH]; intros Hacc; [done|].
  cbn [flat_map fmap list_fmap].
  rewrite (Hacc f) by apply list_elem_of_here.
  rewrite IH by (intros f' Hf'; apply Hacc; by apply list_elem_of_further).
  case_bool_decide as Hp.
  - rewrite filter_cons_True; [reflexivity|exact Hp].
  - rewrite filter_cons_False; [reflexivity|intros Hn; exact (Hn Hp)].
Qed.

(** X21: after [__init__] has accepted a list of files for a subclass
    that declares extensions, [iter_paths] filters none of them by
    extension: without globs it yields every listed file, joined to the
    base path, in order, except the paths that [excludes] yields. *)
Theorem init_then_iter_paths (extensions' : gset string)
    (name' : option string) (files' : option (list string))
    (excludes' : option Sources) (base : string) self excluded :
  extensions' ≠ ∅ →
  base ≠ "" →
  __init__ extensions' name' files' None None None excludes' = inr self →
  match excludes' with
  | Some e => iter_paths fileset e (Some base) = inr excluded
  | None => excluded = []
  end →
  iter_paths fileset self (Some base) =
    inr (filter (λ p, p ∉ excluded) (PosixPath.join base <$> Py.items files')).
Proof.
  intros Hexts Hbase Hinit Hexcluded. unfold __init__ in Hinit.
  rewrite (bool_decide_eq_false_2 _ Hexts) in Hinit. simpl negb in Hinit.
  rewrite andb_true_r in Hinit.
  set (self0 := Build_Sources name' files' None None None None None
                              extensions') in Hinit.
  assert (self = set_excludes excludes' self0
          ∧ ∀ f, f ∈ Py.items files' → _accept_file self0 f = true)
    as [-> Hacc].
  { destruct (Py.list_truthy files') eqn:Hfiles.
    - destruct (check_files_spec self0 (Py.items files'))
        as [[Hok Hall]|(? & ? & ? & _ & _ & _ & Herr)].
      + rewrite Hok in Hinit. injection Hinit as <-. split; [done|].
        intros f Hf. by apply _accept_file_spec, Hall.
      + by rewrite Herr in Hinit.
    - injection Hinit as <-. split; [done|].
      apply list_falsy_items in Hfiles. rewrite Hfiles.
      by intros f ?%elem_of_nil. }
  rewrite iter_paths_unfold. simpl.
  destruct base as [|c base]; [done|]. simpl.
  assert (∀ X : gset string,
            filter_paths fileset (set_excludes excludes' self0)
                         (String c base) X
            = filter (λ p, p ∉ X)
                     (PosixPath.join (String c base) <$> Py.items files'))
    as Hfilter.
  { intros X. unfold filter_paths.
    assert (concat (file_sources fileset (set_excludes excludes' self0)
                                 (String c base)) = Py.items files') as ->.
    { unfold file_sources. simpl.
      destruct (Py.list_truthy files') eqn:Hfiles; simpl.
      - by rewrite app_nil_r.
      - apply list_falsy_items in Hfiles. by rewrite Hfiles. }
    by apply flat_map_all_accepted. }
  destruct excludes' as [e|].
  - rewrite Hexcluded, Hfilter. do 2 f_equal.
    apply list_filter_iff. intros p. by rewrite elem_of_list_to_set.
  - rewrite Hfilter, Hexcluded. do 2 f_equal.
    apply list_filter_iff. intros p. split; intros _.
    + apply not_elem_of_nil.
    + apply not_elem_of_empty.
Qed.

End IterPathsProperties.

(** * More properties of [Target] *)

Section MoreTargetProperties.

Import Target.

Implicit Types (self : Target) (config : Configuration).

Lemma filter_singleton_inv {X} (P : X → Prop) `{!∀ x, Decision (P x)}
    (l : list X) (x : X) :
  filter P l = [x] →
  ∃ before after,
    l = before ++ x :: after ∧ P x ∧ ∀ y, y ∈ before ++ after → ¬ P y.
Proof.
  induction l as [|y l IH]; [done|].
  rewrite filter_cons. destruct (decide (P y)) as [Hy|Hy].
  - intros [= -> Hnil]. exists [], l. split; [done|]. split; [done|].
    intros z Hz Hpz. by apply (filter_nil_not_elem_of _ _ z Hnil).
  - intros (before & after & -> & Hx & Hothers)%IH.
    exists (y :: before), after. split; [done|]. split; [done|].
    intros z [-> | Hz]%elem_of_cons; [done|by apply Hothers].
Qed.

(** X22: the configuration [select_configuration] returns is one of the
    configurations of the target, it has the requested name, and no
    other position of [configurations] holds a configuration of that
    name. *)
Theorem select_configuration_returns_the_only_match self
    (name' : option string) config :
  select_configuration self name' = inr config →
  ∃ before after,
    configurations self = before ++ config :: after
    ∧ name config = name'
    ∧ ∀ c, c ∈ before ++ after → name c ≠ name'.
Proof.
  unfold select_configuration.
  destruct (filter _ (configurations self)) as [|c [|c' l]] eqn:Hfilter;
    try done.
  intros [= ->]. by apply filter_singleton_inv in Hfilter.
Qed.

End MoreTargetProperties.

Section MoreWalkProperties.

Import Target.

Variable h : store.
Variable self : ref.

(** X23: on every store and for both orders, [walk_targets] ends; it
    yields no target twice; it yields the target it was called on and
    the targets that target depends on directly, and no other target. *)
Theorem walk_targets_root_and_direct_deps (postorder : bool) :
  ∃ ys, walk_targets h self postorder = Some ys
        ∧ NoDup ys
        ∧ ∀ t, t ∈ ys ↔ t = self ∨ edge h self t.
Proof. apply walk_targets_direct. Qed.

Lemma walk_targets_shape (postorder : bool) :
  ∃ ys, walk_targets h self postorder
        = Some (if postorder then ys ++ [self] else self :: ys).
Proof.
  destruct (walk_targets_direct h self postorder) as (zs & Hzs & _).
  revert Hzs. unfold walk_targets.
  change (2 + length (target_deps h self))%nat
    with (S (1 + length (target_deps h self))).
  rewrite walk_unvisited by set_solver.
  destruct (for_each _ _ _) as [[ys v']|]; [|done].
  intros _. by exists ys.
Qed.

(** X24: in postorder the target [walk_targets] was called on is
    yielded last; in preorder it is yielded first. *)
Theorem walk_targets_root_position :
  (∃ ys, walk_targets h self true = Some (ys ++ [self]))
  ∧ (∃ ys, walk_targets h self false = Some (self :: ys)).
Proof.
  split; [apply (walk_targets_shape true)|apply (walk_targets_shape false)].
Qed.

(** X25: when every dependency of a direct dependency of the root is the
    root or again a direct dependency of the root, [walk_targets] yields
    every target reachable from the root, once, and nothing else. *)
Theorem walk_targets_complete_when_flat (postorder : bool) :
  (∀ t u, edge h self t → edge h t u → u = self ∨ edge h self u) →
  ∃ ys, walk_targets h self postorder = Some ys
        ∧ NoDup ys
        ∧ ∀ t, t ∈ ys ↔ reachable h self t.
Proof.
  intros Hflat.
  destruct (walk_targets_direct h self postorder) as (ys & Hys & Hnd & Hmem).
  exists ys. split; [done|]. split; [done|].
  intros t. rewrite Hmem. split.
  - intros [-> | Hedge]; [apply rtc_refl|by apply rtc_once].
  - assert (∀ x y, rtc (edge h) x y →
                   x = self ∨ edge h self x → y = self ∨ edge h self y)
      as Hclosed.
    { induction 1 as [x|x y z Hxy _ IH]; [done|].
      intros [-> | Hx]; apply IH; [by right|by eapply Hflat]. }
    intros Hreach. apply (Hclosed self t Hreach). by left.
Qed.

End MoreWalkProperties.

Section MoreChecks.

Import MoreExamples.

Lemma report_exception_fails_run_witness :
  GoalRunner.run GoalRunnerExamples.succeeding broken_report_runner =
    ([GoalRunner.EngineExecute; GoalRunner.InvalidationReport;
      GoalRunner.SetRootOutcome GoalRunner.FAILURE],
     GoalRunner.Raises (GoalRunner.Exception "disk full")).
Proof.
  apply (report_exception_fails_run GoalRunnerExamples.succeeding
           broken_report_runner 0 "disk full"); reflexivity.
Defined.

Lemma iter_paths_address_overrides_witness :
  Sources.address globbed_sources
    = Some {| Sources.spec_path := "src/python";
              Sources.target_name := "lib" |}
  ∧ Sources.iter_paths based_files globbed_sources (Some "elsewhere")
    = inr ["src/python/a.py"]
  ∧ (∀ base_path',
       Sources.iter_paths based_files globbed_sources (Some "elsewhere")
       = Sources.iter_paths based_files globbed_sources base_path')
  ∧ (∀ p, p ∈ ["src/python/a.py"] ↔
       ∃ rel,
         (rel ∈ ["x.py"]
          ∨ (∃ spec, Some "*.py" = Some spec ∧ spec ≠ ""
                     ∧ rel ∈ based_files Sources.Globs "src/python" spec)
          ∨ (∃ spec, None = Some spec ∧ spec ≠ ""
                     ∧ rel ∈ based_files Sources.RGlobs "src/python" spec)
          ∨ (∃ spec, None = Some spec ∧ spec ≠ ""
                     ∧ rel ∈ based_files Sources.ZGlobs "src/python" spec))
         ∧ (PosixPath.splitext rel).2 ∈ ({[ ".py" ]} : gset string)
         ∧ p = PosixPath.join "src/python" rel
         ∧ ∀ excludes' excluded,
             Some x_only = Some excludes' →
             Sources.iter_paths based_files excludes' (Some "src/python")
               = inr excluded →
             p ∉ excluded).
Proof.
  assert (Sources.iter_paths based_files globbed_sources (Some "elsewhere")
          = inr ["src/python/a.py"]) as Hpaths by (vm_compute; reflexivity).
  destruct (iter_paths_address_overrides based_files globbed_sources
              {| Sources.spec_path := "src/python";
                 Sources.target_name := "lib" |}
              (Some "elsewhere") eq_refl)
    as (Hignored & _ & _ & _ & Hyields).
  split; [reflexivity|]. split; [exact Hpaths|].
  split; [exact Hignored|]. exact (Hyields _ Hpaths).
Defined.

Lemma iter_paths_yields_iff_witness :
  ∃ base : string,
    SourcesFacts.resolved_base_path SourcesExamples.python_sources
      (Some "elsewhere") = Some base
    ∧ ("src/python/y.py" ∈ ["src/python/y.py"] ↔
       ∃ rel,
         rel ∈ concat (Sources.file_sources SourcesExamples.no_files
                         SourcesExamples.python_sources base)
         ∧ (PosixPath.splitext rel).2
             ∈ Sources.extensions SourcesExamples.python_sources
         ∧ "src/python/y.py" = PosixPath.join base rel
         ∧ ∀ excludes' excluded,
             Sources.excludes SourcesExamples.python_sources = Some excludes' →
             Sources.iter_paths SourcesExamples.no_files excludes' (Some base)
               = inr excluded →
             "src/python/y.py" ∉ excluded).
Proof.
  apply (iter_paths_yields_iff SourcesExamples.no_files
           SourcesExamples.python_sources (Some "elsewhere")
           ["src/python/y.py"] "src/python/y.py").
  vm_compute. reflexivity.
Defined.

Lemma iter_paths_excludes_only_remove_witness :
  ∃ all_paths,
    Sources.iter_paths SourcesExamples.no_files
      (Sources.set_excludes None SourcesExamples.python_sources)
      (Some "elsewhere") = inr all_paths
    ∧ ["src/python/y.py"] `sublist_of` all_paths.
Proof.
  apply (iter_paths_excludes_only_remove SourcesExamples.no_files
           SourcesExamples.python_sources (Some "elsewhere")
           ["src/python/y.py"]).
  vm_compute. reflexivity.
Defined.

Lemma init_then_iter_paths_witness :
  Sources.iter_paths SourcesExamples.no_files built_sources (Some "base") =
    inr (filter (λ p, p ∉ ["base/x.py"])
                (PosixPath.join "base" <$> ["x.py"; "y.py"])).
Proof.
  apply (init_then_iter_paths SourcesExamples.no_files {[ ".py" ]} None
           (Some ["x.py"; "y.py"]) (Some x_only) "base" built_sources
           ["base/x.py"]).
  - apply non_empty_singleton_L.
  - discriminate.
  - vm_compute. reflexivity.
  - vm_compute. reflexivity.
Defined.

Lemma select_configuration_returns_the_only_match_witness :
  ∃ before after,
    Target.configurations TargetExamples.one_default
      = before ++ TargetExamples.default_config :: after
    ∧ Target.name TargetExamples.default_config = Some "default"
    ∧ ∀ c, c ∈ before ++ after → Target.name c ≠ Some "default".
Proof.
  apply (select_configuration_returns_the_only_match
           TargetExamples.one_default (Some "default")
           TargetExamples.default_config).
  reflexivity.
Defined.

Lemma walk_targets_complete_when_flat_witness :
  ∃ ys, Target.walk_targets diamond TargetExamples.A true = Some ys
        ∧ NoDup ys
        ∧ ∀ t, t ∈ ys ↔ Target.reachable diamond TargetExamples.A t.
Proof.
  apply (walk_targets_complete_when_flat diamond TargetExamples.A true).
  intros t u Ht%target_deps_edge Hu%target_deps_edge.
  change (Target.target_deps diamond TargetExamples.A)
    with [TargetExamples.B; TargetExamples.C] in Ht.
  apply elem_of_cons in Ht as [-> | Ht].
  - change (Target.target_deps diamond TargetExamples.B)
      with [TargetExamples.C] in Hu.
    apply list_elem_of_singleton in Hu as ->.
    right. apply target_deps_edge.
    apply list_elem_of_further, list_elem_of_here.
  - apply list_elem_of_singleton in Ht as ->.
    change (Target.target_deps diamond TargetExamples.C) with (@nil Target.ref)
      in Hu.
    by apply elem_of_nil in Hu.
Defined.

(** On the diamond the walk yields C, B, A in postorder. *)
Lemma walk_targets_diamond :
  Target.walk_targets diamond TargetExamples.A true
  = Some [TargetExamples.C; TargetExamples.B; TargetExamples.A].
Proof. vm_compute. reflexivity. Qed.

End MoreChecks.
